(** * Synchronisation of relation nodes with the many-to-any item store

    A shallow embedding of
    [src/interface/composables/use-sync-relation-nodes.ts]: the
    reconciliation pass between the [relation-block] nodes of a rich-text
    document, the shared item store ([useM2aStore]) and the relation
    collection ([m2aRelation]).

    The pass is stateful: it mutates the store, dispatches transactions on
    the editor document and calls the relation collection.  It is embedded
    by explicit state passing over a [World]; every store mutation, every
    dispatched transaction and every call on the relation collection is
    also appended to a log, so that statements about "which calls were
    made" are statements about that log.  Node objects live in a heap:
    the pass assigns to the attributes of node objects it has read from
    the document, and the document may hold one object at several
    positions.  Code that can raise returns an [Outcome]. *)

From Stdlib Require Import ZArith.
From stdpp Require Import gmap strings list fin_maps.

Local Open Scope string_scope.
Local Open Scope list_scope.
Local Open Scope Z_scope.

(** ** JavaScript values and objects *)

(** Identities are UUID strings ([UUID] in [types/relation-nodes]). *)
Abbreviation UUID := string (only parsing).

(** [editorField: string | null]. *)
Abbreviation Field := (option string) (only parsing).

(** The primitive values that occur as properties of items. *)
Inductive JsValue :=
| JUndefined
| JNull
| JBool (b : bool)
| JNum (z : Z)
| JStr (s : string).

#[global] Instance JsValue_eq_dec : EqDecision JsValue.
Proof. solve_decision. Defined.

(** An [Item] is a plain object: a finite map from property names to
    values.  A property may be present and bound to [undefined]. *)
Abbreviation Item := (gmap string JsValue) (only parsing).

(** Property read [o.k]: [undefined] when the property is absent. *)
Definition prop (o : Item) (k : string) : JsValue := default JUndefined (o !! k).

(** Two objects agree as far as property reads can tell. *)
Definition same_props (o1 o2 : Item) : Prop := ∀ k, prop o1 k = prop o2 k.

(** ** The JavaScript array operations used by the identity memory *)

Module JsArray.
Section ops.
Context {A : Type} `{EqDecision A}.

Fixpoint indexOf_from (i : Z) (x : A) (l : list A) : Z :=
  match l with
  | [] => -1
  | y :: l' => if decide (y = x) then i else indexOf_from (i + 1) x l'
  end.

(** [arr.indexOf(x)]: the first index holding [x], or [-1]. *)
Definition indexOf (x : A) (l : list A) : Z := indexOf_from 0 x l.

(** [arr.push(x)]. *)
Definition push (x : A) (l : list A) : list A := l ++ [x].

(** [arr.splice(start, deleteCount, x)]: a negative [start] counts from
    the end, and both bounds are clamped to the array. *)
Definition splice (start deleteCount : Z) (x : A) (l : list A) : list A :=
  let len := Z.of_nat (length l) in
  let s := if start <? 0 then Z.max (len + start) 0 else Z.min start len in
  let d := Z.min (Z.max deleteCount 0) (len - s) in
  take (Z.to_nat s) l ++ x :: drop (Z.to_nat (s + d)) l.
End ops.
End JsArray.

(** ** The identity memory ([_nodeIdMemory]) *)

Record NodeIdMemory := { nodeIds : list UUID }.

Definition _nodeIdMemory : NodeIdMemory := {| nodeIds := [] |}.

Definition nodeIdUniqueInEditor (nodeId : UUID) (this : NodeIdMemory)
  : bool * NodeIdMemory :=
  let isUnique := JsArray.indexOf nodeId (nodeIds this) <? 0 in
  (isUnique, {| nodeIds := JsArray.push nodeId (nodeIds this) |}).

Definition replaceLastItem (nodeId : UUID) (this : NodeIdMemory) : NodeIdMemory :=
  {| nodeIds :=
       JsArray.splice (Z.of_nat (length (nodeIds this)) - 1) 1 nodeId (nodeIds this) |}.

(** ** The editor document

    ProseMirror nodes are objects, and one node object can sit at several
    positions of a document (after a copy, or a drag that keeps the
    original).  The pass assigns to [node.attrs] of the objects it has
    read, so node objects live in a heap and the document and the
    snapshot hold references to them. *)

(** The attributes of a node: the identity and the remaining attributes,
    which the pass copies unchanged ([{ ...node.attrs, id: nodeId }]). *)
Record Attrs := { attrs_id : UUID; attrs_rest : Item }.

(** What the pass reads and writes of a node object. *)
Record PMNode := { type_name : string; attrs : Attrs }.

(** A reference to a node object. *)
Abbreviation Ref := nat (only parsing).

(** [{ node, pos }]: a node object and a position. *)
Record NodeWithPos := { node : Ref; pos : nat }.

(** The document, as [descendants] and [nodeAt] show it: which node
    object starts at which position, below [doc.content.size].  The
    positions are those of the editor.  (A replacement also rebuilds the
    ancestors of the replaced node, as new objects with the same type
    and attributes.  The pass holds references to [relation-block] nodes
    only and the statements below speak of what a position reads, so
    this is left out: it would show only for a [relation-block] inside
    another one.) *)
Record PMDoc := { content_size : nat; starts : gmap nat nat }.

(** [doc.nodeAt(pos)], for the positions at which a node starts.  (At a
    position inside a text node the editor answers with the text node;
    [setNodeMarkup] raises for it as it does when there is no node.) *)
Definition nodeAt (d : PMDoc) (p : nat) : option Ref :=
  if decide (p < content_size d)%nat then starts d !! p else None.

(** [doc.descendants(f)]: every node with its position, in document
    order. *)
Definition descendants (d : PMDoc) : list NodeWithPos :=
  omap (λ p, (λ o, {| node := o; pos := p |}) <$> nodeAt d p)
       (seq 0 (content_size d)).

(** The object a reference denotes.  (A reference always denotes an
    object; the default only makes the read total.) *)
Definition no_node : PMNode :=
  {| type_name := ""; attrs := {| attrs_id := ""; attrs_rest := ∅ |} |}.

Definition deref (h : gmap nat PMNode) (o : Ref) : PMNode :=
  default no_node (h !! o).

(** A reference to no object of the heap and to no node of the document:
    that of the next object created. *)
Definition new_object (h : gmap nat PMNode) (d : PMDoc) : Ref :=
  fresh (dom h ∪ map_img (starts d)).

Record Transaction :=
  { tr_pos : nat; tr_attrs : Attrs; addToHistory : bool; preventUpdate : bool }.

(** ** The item store ([useM2aStore])

    The store lives in [composables/use-m2a-store], which is not part of
    the sources at hand; its operations are modelled from the contract the
    specification gives for them. *)

Record M2AStoreItem :=
  { item : Item;
    edits : option Item;
    active : bool;
    isNew : bool;
    field : Field }.

Abbreviation M2AStore := (gmap string M2AStoreItem) (only parsing).

(** Modelled from the spec: the generator of identities used by the
    missing [duplicateItem] ("request a fresh identity").  The identity it
    yields is not yet in the store. *)
Class UuidSource := {
  new_uuid : M2AStore → UUID;
  new_uuid_fresh : ∀ s : M2AStore, s !! new_uuid s = None
}.

(** Modelled from the spec: the missing [itemExists(id) -> bool]. *)
Definition itemExists (s : M2AStore) (nodeId : UUID) : bool :=
  bool_decide (is_Some (s !! nodeId)).

(** Modelled from the spec: the missing [getItem(id) -> item|undefined]. *)
Definition getItem (s : M2AStore) (nodeId : UUID) : option M2AStoreItem :=
  s !! nodeId.

(** Modelled from the spec: the missing [itemIsActive(id) -> bool],
    "store item is currently active". *)
Definition itemIsActive (s : M2AStore) (nodeId : UUID) : bool :=
  from_option active false (s !! nodeId).

(** Modelled from the spec: the missing [itemIsNew(id) -> bool], "the
    underlying record has never been persisted". *)
Definition itemIsNew (s : M2AStore) (nodeId : UUID) : bool :=
  from_option isNew false (s !! nodeId).

(** Modelled from the spec: the missing [itemFromDifferentEditor], "the
    store item is currently owned by a different editor field than this
    one". *)
Definition itemFromDifferentEditor (s : M2AStore) (nodeId : UUID)
    (editorField : Field) : bool :=
  from_option (λ it, bool_decide (field it ≠ editorField)) false (s !! nodeId).

(** Modelled from the spec: the missing [activateItem], "mark the store
    item active again". *)
Definition activateItem (nodeId : UUID) (s : M2AStore) : M2AStore :=
  alter (λ it, {| item := item it; edits := edits it; active := true;
                  isNew := isNew it; field := field it |}) nodeId s.

(** Modelled from the spec: the missing [setField], "reassign its
    ownership to this field in the store". *)
Definition setField (nodeId : UUID) (editorField : Field) (s : M2AStore)
  : M2AStore :=
  alter (λ it, {| item := item it; edits := edits it; active := active it;
                  isNew := isNew it; field := editorField |}) nodeId s.

(** Modelled from the spec: the record the missing [duplicateItem]
    stores, "copying the original item's data".  The copy is taken to be
    a record that has never been persisted, with the state and the owner
    of the original. *)
Definition duplicate_of (it : M2AStoreItem) : M2AStoreItem :=
  {| item := item it; edits := edits it; active := active it;
     isNew := true; field := field it |}.

(** Modelled from the spec: the missing [duplicateItem(id, relationRef) ->
    newId], "request a fresh identity for a duplicate record (copying the
    original item's data)"; the duplicate is a new item. *)
Definition duplicateItem `{UuidSource} (nodeId : UUID) (s : M2AStore)
  : UUID * M2AStore :=
  let newId := new_uuid s in
  (newId, match s !! nodeId with
          | Some it => <[newId := duplicate_of it]> s
          | None => s
          end).

(** An item that [deactivateUnusedItems] drops: active, owned by this
    field, and absent from the identities present in the document. *)
Definition unused (existingNodeIds : list UUID) (editorField : Field)
    (nodeId : UUID) (it : M2AStoreItem) : bool :=
  active it && bool_decide (field it = editorField)
            && bool_decide (nodeId ∉ existingNodeIds).

Definition deactivate (it : M2AStoreItem) : M2AStoreItem :=
  {| item := item it; edits := edits it; active := false;
     isNew := isNew it; field := field it |}.

(** Modelled from the spec: the missing [deactivateUnusedItems(currentIds,
    field) -> deactivatedIds], "a store-side set-difference against its
    own bookkeeping of previously active identities for this field,
    returning the ones dropped, and flipping them to inactive as a side
    effect". *)
Definition deactivateUnusedItems (existingNodeIds : list UUID)
    (editorField : Field) (s : M2AStore) : list UUID * M2AStore :=
  ((map_to_list (filter (λ kv, unused existingNodeIds editorField kv.1 kv.2 = true) s)).*1,
   map_imap (λ nodeId it,
     Some (if unused existingNodeIds editorField nodeId it
           then deactivate it else it)) s).

(** ** The relation collection ([m2aRelation])

    An external collaborator: the pass only relies on its interface.  The
    collection has a state of its own, which every call may change and
    which [findDisplayItem] reads.  [remove] is declared on items, but the
    pass hands it the result of a lookup it has not checked, hence the
    optional argument.  The calls are recorded as they are made; what the
    collection does with an argument it does not expect is its own
    business and is not modelled. *)
Class RelationReference (R : Type) := {
  findDisplayItem : R → UUID → option Item;
  create : Item → R → R;
  update : Item → R → R;
  remove : option Item → R → R;
  deleteItem : Item → R → R
}.

(** ** The log of effects *)

Inductive Event :=
| DuplicateItem (nodeId newId : UUID)
| ActivateItem (nodeId : UUID)
| SetField (nodeId : UUID) (editorField : Field)
| Deactivated (nodeId : UUID)
| Dispatch (tr : Transaction)
| Create (i : Item)
| Update (e : Item)
| Remove (i : option Item)
| DeleteItem (i : Item).

(** The calls on the relation collection. *)
Definition is_collection_call (e : Event) : bool :=
  match e with
  | Create _ | Update _ | Remove _ | DeleteItem _ => true
  | _ => false
  end.

(** The mutations of the store. *)
Definition is_store_mutation (e : Event) : bool :=
  match e with
  | DuplicateItem _ _ | ActivateItem _ | SetField _ _ | Deactivated _ => true
  | _ => false
  end.

(** A call that hands the collection a value it has looked up without
    checking that the lookup succeeded. *)
Definition unguarded (e : Event) : bool :=
  match e with
  | Remove None => true
  | _ => false
  end.

(** The result of code that may raise ([TypeError], [RangeError]). *)
Inductive Outcome (A : Type) :=
| Done (a : A)
| Threw.
Arguments Done {A} a.
Arguments Threw {A}.

(** ** The synchronisation pass ([useSyncRelationNodes]) *)

(** What the pass reads and writes: the store, the relation collection,
    the editor document ([editor.value.state.doc]) with the node objects,
    and the log.  The editor is taken to be mounted ([editor.value] is
    defined). *)
Record World (R : Type) := {
  m2aStore : M2AStore;
  m2aRelation : R;
  doc : PMDoc;
  objects : gmap nat PMNode;
  log : list Event
}.
Arguments m2aStore {R} _.
Arguments m2aRelation {R} _.
Arguments doc {R} _.
Arguments objects {R} _.
Arguments log {R} _.

(** [node.attrs.id], read from the node object. *)
Definition node_id {R} (w : World R) (nw : NodeWithPos) : UUID :=
  attrs_id (attrs (deref (objects w) (node nw))).

(** [node.type.name === "relation-block"]. *)
Definition is_relation_block {R} (w : World R) (nw : NodeWithPos) : Prop :=
  type_name (deref (objects w) (node nw)) = "relation-block".

#[global] Instance is_relation_block_dec {R} (w : World R) nw :
  Decision (is_relation_block w nw).
Proof. unfold is_relation_block. apply _. Defined.

Section pass.
Context {R : Type} `{!RelationReference R} `{!UuidSource}.

Implicit Types (w : World R) (nodeId : UUID) (editorField : Field).

(** *** Effects, one by one *)

Definition with_store (s : M2AStore) (evs : list Event) w : World R :=
  {| m2aStore := s; m2aRelation := m2aRelation w; doc := doc w;
     objects := objects w; log := log w ++ evs |}.

Definition with_relation (r : R) (ev : Event) w : World R :=
  {| m2aStore := m2aStore w; m2aRelation := r; doc := doc w;
     objects := objects w; log := log w ++ [ev] |}.

Definition store_duplicateItem nodeId w : UUID * World R :=
  let '(newId, s) := duplicateItem nodeId (m2aStore w) in
  (newId, with_store s [DuplicateItem nodeId newId] w).

Definition store_activateItem nodeId w : World R :=
  with_store (activateItem nodeId (m2aStore w)) [ActivateItem nodeId] w.

Definition store_setField nodeId editorField w : World R :=
  with_store (setField nodeId editorField (m2aStore w))
             [SetField nodeId editorField] w.

Definition store_deactivateUnusedItems (existingNodeIds : list UUID)
    editorField w : list UUID * World R :=
  let '(inactiveNodeIds, s) :=
    deactivateUnusedItems existingNodeIds editorField (m2aStore w) in
  (inactiveNodeIds, with_store s (Deactivated <$> inactiveNodeIds) w).

Definition relation_create (i : Item) w : World R :=
  with_relation (create i (m2aRelation w)) (Create i) w.

Definition relation_update (e : Item) w : World R :=
  with_relation (update e (m2aRelation w)) (Update e) w.

Definition relation_remove (i : option Item) w : World R :=
  with_relation (remove i (m2aRelation w)) (Remove i) w.

Definition relation_deleteItem (i : Item) w : World R :=
  with_relation (deleteItem i (m2aRelation w)) (DeleteItem i) w.

(** [tr.setNodeMarkup(pos, undefined, attrs)]: the node at [pos] is
    replaced by a new node object of the same type with the new
    attributes; nothing moves.  It raises a [RangeError] when there is no
    node at [pos], and an error when the node there is a text node, which
    cannot be created this way.  The result is the document and the heap
    of the transaction. *)
Definition setNodeMarkup (p : nat) (a : Attrs) w
  : Outcome (PMDoc * gmap nat PMNode) :=
  match nodeAt (doc w) p with
  | None => Threw
  | Some o =>
      let n := deref (objects w) o in
      if decide (type_name n = "text") then Threw else
      let o' := new_object (objects w) (doc w) in
      Done ({| content_size := content_size (doc w);
               starts := <[p := o']> (starts (doc w)) |},
            <[o' := {| type_name := type_name n; attrs := a |}]> (objects w))
  end.

(** [editor.value.view.dispatch(transaction)]: the state of the editor
    becomes that of the transaction. *)
Definition dispatch (tr : Transaction) (d : PMDoc) (h : gmap nat PMNode) w
  : World R :=
  {| m2aStore := m2aStore w; m2aRelation := m2aRelation w;
     doc := d; objects := h; log := log w ++ [Dispatch tr] |}.

(** [node.attrs = updatedAttrs], on the node object itself. *)
Definition assign_attrs (o : Ref) (a : Attrs) w : World R :=
  {| m2aStore := m2aStore w; m2aRelation := m2aRelation w; doc := doc w;
     objects := <[o := {| type_name := type_name (deref (objects w) o);
                          attrs := a |}]> (objects w);
     log := log w |}.

(** *** Reading the document *)

Definition _getExistingEditorNodes w : list NodeWithPos :=
  filter (is_relation_block w) (descendants (doc w)).

(** *** Patching a node *)

(** Builds the transaction, dispatches it silently, and then overwrites
    the attributes of the node object the caller holds. *)
Definition _updateNodeAttrs (nw : NodeWithPos) (updatedAttrs : Attrs) w
  : Outcome (World R) :=
  match setNodeMarkup (pos nw) updatedAttrs w with
  | Threw => Threw
  | Done (d, h) =>
      let transaction :=
        {| tr_pos := pos nw; tr_attrs := updatedAttrs;
           addToHistory := false; preventUpdate := true |} in
      let w := dispatch transaction d h w in
      Done (assign_attrs (node nw) updatedAttrs w)
  end.

Definition _refreshEditorNodeId nodeId (nw : NodeWithPos) w
  : Outcome (World R) :=
  _updateNodeAttrs nw
    {| attrs_id := nodeId;
       attrs_rest := attrs_rest (attrs (deref (objects w) (node nw))) |} w.

(** *** Reactivation helpers *)

(** [{ ...edits, $type, $index, $edits }] with the three properties read
    from the display item. *)
Definition merged_edits (pending displayItem : Item) : Item :=
  <["$edits" := prop displayItem "$edits"]>
    (<["$index" := prop displayItem "$index"]>
       (<["$type" := prop displayItem "$type"]> pending)).

(** Returns the value of [storeItem.edits] after the call.  [storeItem]
    is the object held by the store under [nodeId], so the assignment to
    [storeItem.edits] shows in the store. *)
Definition _mergeUpdatedValues (storeItem : M2AStoreItem) (pending : Item)
    nodeId w : Item * World R :=
  match findDisplayItem (m2aRelation w) nodeId with
  | None => (pending, w)
  | Some displayItem =>
      let e := merged_edits pending displayItem in
      (e, with_store
            (<[nodeId := {| item := item storeItem; edits := Some e;
                            active := active storeItem;
                            isNew := isNew storeItem;
                            field := field storeItem |}]> (m2aStore w))
            [] w)
  end.

(** The lookup is not checked ([findDisplayItem(nodeId)!]). *)
Definition _reactivateRelatedItem nodeId w : World R :=
  let relatedItem := findDisplayItem (m2aRelation w) nodeId in
  relation_remove relatedItem w.

(** *** Insertion reconciliation *)

(** The body of the [forEach] callback of [syncInsertedNodes], for one
    entry of the snapshot.  It returns the world and the memory as the
    callback leaves them. *)
Definition syncInsertedNode editorField (nw : NodeWithPos) w
    (memory : NodeIdMemory) : Outcome (World R * NodeIdMemory) :=
  let nodeId := node_id w nw in
  if negb (itemExists (m2aStore w) nodeId) then Done (w, memory) else
  let storeItemIsActive := itemIsActive (m2aStore w) nodeId in
  let '(nodeIdIsUnique, memory) := nodeIdUniqueInEditor nodeId memory in
  let nodeFromDifferentEditor :=
    itemFromDifferentEditor (m2aStore w) nodeId editorField in
  if storeItemIsActive && nodeIdIsUnique && negb nodeFromDifferentEditor
  then Done (w, memory) else
  let changed :=
    if storeItemIsActive then
      let '(nodeId, w) := store_duplicateItem nodeId w in
      match _refreshEditorNodeId nodeId nw w with
      | Threw => Threw
      | Done w => Done (nodeId, w, replaceLastItem nodeId memory)
      end
    else Done (nodeId, store_activateItem nodeId w, memory) in
  match changed with
  | Threw => Threw
  | Done (nodeId, w, memory) =>
      let w :=
        if nodeFromDifferentEditor then store_setField nodeId editorField w
        else w in
      let storeItemReactivated := negb storeItemIsActive in
      let storeItemNotNew := negb (itemIsNew (m2aStore w) nodeId) in
      match getItem (m2aStore w) nodeId with
      | None => Threw
      | Some storeItem =>
          if storeItemNotNew && storeItemReactivated then
            let w := _reactivateRelatedItem nodeId w in
            match edits storeItem with
            | Some pending =>
                let '(e, w) := _mergeUpdatedValues storeItem pending nodeId w in
                Done (relation_update e w, memory)
            | None => Done (w, memory)
            end
          else Done (relation_create (item storeItem) w, memory)
      end
  end.

(** [editorNodes.forEach(...)]: the callback on every entry in document
    order; an exception ends the loop. *)
Fixpoint forEach_node editorField (editorNodes : list NodeWithPos) w
    (memory : NodeIdMemory) : Outcome (World R * NodeIdMemory) :=
  match editorNodes with
  | [] => Done (w, memory)
  | nw :: rest =>
      match syncInsertedNode editorField nw w memory with
      | Threw => Threw
      | Done (w, memory) => forEach_node editorField rest w memory
      end
  end.

Definition syncInsertedNodes editorField (editorNodes : list NodeWithPos) w
  : Outcome (World R * NodeIdMemory) :=
  let memory := _nodeIdMemory in
  forEach_node editorField editorNodes w memory.

(** *** Removal reconciliation *)

Definition _removeRelatedItems (nodeIds : list UUID) w : World R :=
  if bool_decide (length nodeIds = 0%nat) then w else
  foldl (λ w nodeId,
           match findDisplayItem (m2aRelation w) nodeId with
           | None => w
           | Some relatedItem => relation_deleteItem relatedItem w
           end) w nodeIds.

Definition syncRemovedNodes editorField (editorNodes : list NodeWithPos) w
  : World R :=
  let existingNodeIds := node_id w <$> editorNodes in
  let '(inactiveNodeIds, w) :=
    store_deactivateUnusedItems existingNodeIds editorField w in
  _removeRelatedItems inactiveNodeIds w.

(** *** The pass *)

Definition syncRelationNodes editorField w : Outcome (World R) :=
  let editorNodes := _getExistingEditorNodes w in
  let w := syncRemovedNodes editorField editorNodes w in
  match syncInsertedNodes editorField editorNodes w with
  | Threw => Threw
  | Done (w, _) => Done w
  end.

End pass.

(** ** Concrete collaborators, for running the pass *)

(** A relation collection that stages nothing by itself: its display
    items are fixed and its calls only show in the log. *)
Record FixedRelation := { displayItems : gmap string (gmap string JsValue) }.

#[global] Instance FixedRelation_reference : RelationReference FixedRelation := {|
  findDisplayItem r nodeId := displayItems r !! nodeId;
  create _ r := r;
  update _ r := r;
  remove _ r := r;
  deleteItem _ r := r
|}.

(** A generator that yields an identity outside the store and outside a
    given set of identities in use elsewhere. *)
Definition uuid_avoiding (inUse : gset string) : UuidSource.
Proof.
  refine {| new_uuid s := fresh (dom s ∪ inUse) |}.
  intros s. apply not_elem_of_dom. intros Hin.
  apply (is_fresh (dom s ∪ inUse)). set_solver.
Defined.

Definition relation_block (nodeId : UUID) : PMNode :=
  {| type_name := "relation-block";
     attrs := {| attrs_id := nodeId; attrs_rest := ∅ |} |}.

Definition paragraph : PMNode :=
  {| type_name := "paragraph";
     attrs := {| attrs_id := ""; attrs_rest := ∅ |} |}.

Definition stored (a n : bool) (f : Field) (e : option Item) : M2AStoreItem :=
  {| item := {["title" := JStr "t"]}; edits := e; active := a; isNew := n;
     field := f |}.

(** ** Specification-side definitions and sample inputs *)

(** Modelled on the spec's words: "whether the identity was already seen". *)
Definition already_seen (nodeId : UUID) (this : NodeIdMemory) : bool :=
  bool_decide (nodeId ∈ nodeIds this).

(** Modelled on the spec's words: "for every returned identity, look up
    its corresponding record in the relation collection; if found, issue a
    delete; missing records are silently skipped". *)
Inductive removal_calls {R} `{!RelationReference R}
  : R → list UUID → list Event → R → Prop :=
| removal_nil r : removal_calls r [] [] r
| removal_found r nodeId relatedItem nodeIds calls r' :
    findDisplayItem r nodeId = Some relatedItem →
    removal_calls (deleteItem relatedItem r) nodeIds calls r' →
    removal_calls r (nodeId :: nodeIds) (DeleteItem relatedItem :: calls) r'
| removal_missing r nodeId nodeIds calls r' :
    findDisplayItem r nodeId = None →
    removal_calls r nodeIds calls r' →
    removal_calls r (nodeId :: nodeIds) calls r'.

(** The store entry of a node once it is claimed by [editorField]. *)
Definition claimed (editorField : Field) (it : M2AStoreItem) : M2AStoreItem :=
  {| item := item it; edits := edits it; active := true; isNew := isNew it;
     field := if bool_decide (field it ≠ editorField) then editorField
              else field it |}.

(** The ownership change that goes with it, if any. *)
Definition claim_events (nodeId : UUID) (editorField : Field)
    (it : M2AStoreItem) : list Event :=
  if bool_decide (field it ≠ editorField) then [SetField nodeId editorField]
  else [].

(** A node object after [_refreshEditorNodeId]: the new identity, the
    other attributes and the type as they were. *)
Definition patched (newId : UUID) (n : PMNode) : PMNode :=
  {| type_name := type_name n;
     attrs := {| attrs_id := newId; attrs_rest := attrs_rest (attrs n) |} |}.

(** The transaction [_updateNodeAttrs] dispatches for it. *)
Definition silent_patch (newId : UUID) (n : PMNode) (p : nat) : Transaction :=
  {| tr_pos := p; tr_attrs := attrs (patched newId n);
     addToHistory := false; preventUpdate := true |}.

(** The editor after [_refreshEditorNodeId newId] on a snapshot entry
    whose object the document holds at the entry's position: a new
    object sits at that position, and the object of the entry is
    overwritten; both read as [patched]. *)
Definition refreshed_doc (d : PMDoc) (h : gmap nat PMNode) (nw : NodeWithPos)
  : PMDoc :=
  {| content_size := content_size d;
     starts := <[pos nw := new_object h d]> (starts d) |}.

Definition refreshed_objects (d : PMDoc) (h : gmap nat PMNode)
    (nw : NodeWithPos) (newId : UUID) : gmap nat PMNode :=
  <[node nw := patched newId (deref h (node nw))]>
    (<[new_object h d := patched newId (deref h (node nw))]> h).

(** The node the document shows at a position, and its identity. *)
Definition read_at {R} (w : World R) (p : nat) : option PMNode :=
  deref (objects w) <$> nodeAt (doc w) p.

Definition id_at {R} (w : World R) (p : nat) : UUID :=
  from_option (λ n, attrs_id (attrs n)) "" (read_at w p).

(** The nodes of the document as they read, in document order. *)
Definition shown {R} (w : World R) : list PMNode :=
  (λ nw, deref (objects w) (node nw)) <$> descendants (doc w).

(** The references in use: those of the objects of the heap and those
    the document holds. *)
Definition live {R} (w : World R) (o : nat) : Prop :=
  is_Some (objects w !! o) ∨ ∃ p, starts (doc w) !! p = Some o.

(** What a callback on the entry [nw] leaves alone in the editor: the
    size of the document, the other positions, the other objects. *)
Record editor_frame {R} (nw : NodeWithPos) (w w' : World R) : Prop := {
  frame_size : content_size (doc w') = content_size (doc w);
  frame_positions : ∀ q, q ≠ pos nw → nodeAt (doc w') q = nodeAt (doc w) q;
  frame_objects : ∀ o, o ≠ node nw → live w o →
    objects w' !! o = objects w !! o;
  frame_live : ∀ o, live w o → live w' o
}.

(** Two states of the editor that read the same but for the identities
    of reference nodes, position by position. *)
Definition same_reading {R} (w w' : World R) : Prop :=
  content_size (doc w') = content_size (doc w)
  ∧ ∀ p, option_Forall2
           (λ n n', type_name n' = type_name n
                    ∧ attrs_rest (attrs n') = attrs_rest (attrs n)
                    ∧ (type_name n ≠ "relation-block" → n' = n))
           (read_at w p) (read_at w' p).

(** What the callback does to the store, the memory and the identity of
    the node, case by case. *)
Inductive node_step `{!UuidSource} (editorField : Field)
    (s : M2AStore) (m : list UUID) (nodeId : UUID)
  : M2AStore → list UUID → UUID → Prop :=
| step_orphan :
    s !! nodeId = None →
    node_step editorField s m nodeId s m nodeId
| step_unchanged it :
    s !! nodeId = Some it → active it = true → field it = editorField →
    nodeId ∉ m →
    node_step editorField s m nodeId s (m ++ [nodeId]) nodeId
| step_duplicate it x :
    s !! nodeId = Some it → active it = true →
    nodeId ∈ m ∨ field it ≠ editorField →
    active x = true → field x = editorField →
    node_step editorField s m nodeId
      (<[new_uuid s := x]> s) (m ++ [new_uuid s]) (new_uuid s)
| step_activate it x :
    s !! nodeId = Some it → active it = false →
    active x = true → field x = editorField →
    node_step editorField s m nodeId (<[nodeId := x]> s) (m ++ [nodeId]) nodeId.


(** The invariant of the insertion loop.  [s0] is the store when the loop
    starts, [seen] the identities the processed nodes had in the snapshot,
    [s] and [m] the store and the memory now. *)
Record loop_inv (editorField : Field) (s0 : M2AStore) (seen : list UUID)
    (s : M2AStore) (m : list UUID) : Prop := {
  inv_grow : ∀ x, is_Some (s0 !! x) → is_Some (s !! x);
  inv_untouched : ∀ x, x ∉ seen → is_Some (s0 !! x) → s !! x = s0 !! x;
  inv_seen : ∀ x, x ∈ seen → is_Some (s0 !! x) →
    ∃ it, s !! x = Some it ∧ active it = true
          ∧ (x ∈ m ∨ field it ≠ editorField);
  inv_memory : ∀ x, x ∈ m →
    ∃ it, s !! x = Some it ∧ active it = true ∧ field it = editorField;
  inv_origin : ∀ x, x ∈ m → x ∈ seen ∨ s0 !! x = None;
  inv_nodup : NoDup m;
  inv_owned : ∀ x it, s !! x = Some it → active it = true →
    field it = editorField → x ∈ m ∨ ((x ∉ seen) ∧ s0 !! x = Some it)
}.

(** Whether a node of the snapshot is given a new identity: it repeats an
    identity seen earlier in the pass, or its item is active under another
    field. *)
Definition reidentified (editorField : Field) (seen : list UUID)
    (nodeId : UUID) (it : M2AStoreItem) : bool :=
  bool_decide (nodeId ∈ seen)
  || (active it && bool_decide (field it ≠ editorField)).

(** Modelled on the spec's words: "the first node encountered (in document
    order) carrying a given identity keeps it".  [before] and [after] are
    the identities the document shows, in document order. *)
Definition first_occurrence_keeps (before after : list UUID) : Prop :=
  ∀ (i : nat) x x',
    before !! i = Some x → after !! i = Some x' →
    x ∉ take i before →
    x' = x.

(** The calls on the relation collection among some events. *)
Definition collection_calls (evs : list Event) : list Event :=
  filter (λ e, is_collection_call e = true) evs.

(** Sample worlds: a store, the display items of a fixed relation
    collection, a document and its node objects. *)
Definition sample_world (s : M2AStore) (displayed : gmap string (gmap string JsValue))
    (d : PMDoc) (h : gmap nat PMNode) : World FixedRelation :=
  {| m2aStore := s; m2aRelation := {| displayItems := displayed |}; doc := d;
     objects := h; log := [] |}.

(** An entry of a snapshot. *)
Definition entry (o p : nat) : NodeWithPos := {| node := o; pos := p |}.

(** A document of block nodes without content, one after the other from
    position [0], each of size [1]. *)
Definition leaves (os : list nat) : PMDoc :=
  {| content_size := length os;
     starts := list_to_map (zip (seq 0 (length os)) os) |}.

(** [U1] is active under field [F] and [U2] under field [G]; the
    document shows, after an empty paragraph, [U1] twice (two node
    objects) and then [U2]. *)
Definition world_repeat : World FixedRelation :=
  sample_world {["U1" := stored true false (Some "F") None;
                 "U2" := stored true false (Some "G") None]} ∅
    {| content_size := 5;
       starts := {[ 0%nat := 10%nat; 2%nat := 11%nat; 3%nat := 12%nat;
                    4%nat := 13%nat ]} |}
    {[ 10%nat := paragraph; 11%nat := relation_block "U1";
       12%nat := relation_block "U1"; 13%nat := relation_block "U2" ]}.

(** [U1] is active under field [F]; the document holds one node object at
    two positions. *)
Definition world_shared : World FixedRelation :=
  sample_world {["U1" := stored true false (Some "F") None]} ∅
    (leaves [7%nat; 7%nat]) {[ 7%nat := relation_block "U1" ]}.

(** [U1] is active under field [F1]; the document of field [F2] shows it. *)
Definition world_cross : World FixedRelation :=
  sample_world {["U1" := stored true false (Some "F1") None]} ∅
    (leaves [7%nat]) {[ 7%nat := relation_block "U1" ]}.

(** [U1] was persisted and removed, was edited meanwhile, and is back in
    the document. *)
Definition world_back (displayed : gmap string (gmap string JsValue))
  : World FixedRelation :=
  sample_world
    {["U1" := stored false false (Some "F") (Some {["a" := JNum 1]})]}
    displayed (leaves [7%nat]) {[ 7%nat := relation_block "U1" ]}.

Definition shown_deleted : gmap string (gmap string JsValue) :=
  {["U1" := <["$index" := JNum 2]> {["$type" := JStr "X"]}]}.

(** The store knows nothing of the only node. *)
Definition world_orphan : World FixedRelation :=
  sample_world ∅ ∅ (leaves [7%nat]) {[ 7%nat := relation_block "U1" ]}.

(** ** Definitions for the further properties *)

(** The events of removal reconciliation. *)
Definition is_removal_event (e : Event) : bool :=
  match e with
  | Deactivated _ | DeleteItem _ => true
  | _ => false
  end.

(** The events of insertion reconciliation. *)
Definition is_insertion_event (e : Event) : bool :=
  match e with
  | DuplicateItem _ _ | ActivateItem _ | SetField _ _ | Dispatch _
  | Create _ | Update _ | Remove _ => true
  | _ => false
  end.


(** Two readings of a document that differ at most in the identity of
    reference nodes. *)
Definition same_but_ids (d d' : list PMNode) : Prop :=
  length d' = length d
  ∧ ∀ (p : nat) n n', d !! p = Some n → d' !! p = Some n' →
      type_name n' = type_name n
      ∧ attrs_rest (attrs n') = attrs_rest (attrs n)
      ∧ (type_name n ≠ "relation-block" → n' = n).

(** Recording a run of identities, one check after the other. *)
Definition record_all (nodeIds : list UUID) (this : NodeIdMemory) : NodeIdMemory :=
  foldl (λ m nodeId, (nodeIdUniqueInEditor nodeId m).2) this nodeIds.

(** The four shapes the collection calls of one callback can take. *)
Inductive callback_calls : list Event → Prop :=
| calls_none : callback_calls []
| calls_create i : callback_calls [Create i]
| calls_remove o : callback_calls [Remove o]
| calls_remove_update o e : callback_calls [Remove o; Update e].

(** * Properties *)

Lemma indexOf_from_bounds (i : Z) (x : string) (l : list string) :
  0 ≤ i →
  (x ∈ l → i ≤ JsArray.indexOf_from i x l)
  ∧ (x ∉ l → JsArray.indexOf_from i x l = -1).
Proof.
  revert i. induction l as [|y l IH]; intros i Hi; simpl.
  - split; [by intros ?%elem_of_nil | done].
  - destruct (decide (y = x)) as [->|Hne].
    + split; [lia | intros []; left].
    + destruct (IH (i + 1) ltac:(lia)) as [IH1 IH2]. split.
      * intros [?|?]%elem_of_cons; [congruence|]. specialize (IH1 H). lia.
      * intros Hn. apply IH2. intros ?. apply Hn. by right.
Qed.

Lemma indexOf_negative (x : string) (l : list string) :
  (JsArray.indexOf x l <? 0) = negb (bool_decide (x ∈ l)).
Proof.
  unfold JsArray.indexOf.
  destruct (indexOf_from_bounds 0 x l ltac:(lia)) as [H1 H2].
  case_bool_decide as Hin; simpl.
  - apply Z.ltb_ge. auto.
  - rewrite (H2 Hin). reflexivity.
Qed.

Lemma splice_last {A} (x y : A) (l : list A) :
  JsArray.splice (Z.of_nat (length (l ++ [y])) - 1) 1 x (l ++ [y]) = l ++ [x].
Proof.
  unfold JsArray.splice. rewrite length_app. simpl.
  set (n := length l).
  replace (Z.of_nat (n + 1) - 1) with (Z.of_nat n) by lia.
  destruct (Z.ltb_spec (Z.of_nat n) 0) as [?|_]; [lia|].
  rewrite Z.min_l by lia.
  replace (Z.min (Z.max 1 0) (Z.of_nat (n + 1) - Z.of_nat n)) with 1 by lia.
  rewrite Nat2Z.id.
  replace (Z.to_nat (Z.of_nat n + 1)) with (S n) by lia.
  subst n. rewrite take_app_length.
  rewrite drop_ge by (rewrite length_app; simpl; lia).
  reflexivity.
Qed.

Lemma replaceLastItem_after_record (nodeId newId : UUID) (this : NodeIdMemory) :
  replaceLastItem newId (nodeIdUniqueInEditor nodeId this).2
  = {| nodeIds := nodeIds this ++ [newId] |}.
Proof.
  unfold replaceLastItem, nodeIdUniqueInEditor, JsArray.push. simpl.
  by rewrite splice_last.
Qed.

(** C8 (amended: the flag is the uniqueness flag).  For every sequence of
    recorded identities and every identity, check-and-record returns
    [true] exactly when the identity was NOT already in the sequence, and
    appends the identity to the sequence; replace-last puts the given
    identity in place of the most recently recorded one and leaves the
    earlier entries as they are. *)
Theorem nodeIdMemory_check_and_record
    (seen : list UUID) (nodeId recorded newId : UUID) :
  let this := {| nodeIds := seen |} in
  (nodeIdUniqueInEditor nodeId this).1 = negb (already_seen nodeId this)
  ∧ nodeIds (nodeIdUniqueInEditor nodeId this).2 = seen ++ [nodeId]
  ∧ nodeIds (replaceLastItem newId {| nodeIds := seen ++ [recorded] |})
    = seen ++ [newId].
Proof.
  simpl. split; [apply indexOf_negative|]. split; [reflexivity|].
  unfold replaceLastItem. simpl. apply splice_last.
Qed.

(** C8 as stated fails: [U1] was already seen, and check-and-record
    answers [false]. *)
Lemma nodeIdMemory_returns_uniqueness_not_seen :
  (nodeIdUniqueInEditor "U1" {| nodeIds := ["U1"] |}).1
  ≠ already_seen "U1" {| nodeIds := ["U1"] |}.
Proof. vm_compute. discriminate. Qed.

(** ** The store model *)

Lemma itemExists_true (s : M2AStore) nodeId :
  itemExists s nodeId = true ↔ is_Some (s !! nodeId).
Proof. unfold itemExists. apply bool_decide_eq_true. Qed.

Lemma itemExists_false (s : M2AStore) nodeId :
  itemExists s nodeId = false ↔ s !! nodeId = None.
Proof.
  unfold itemExists. rewrite bool_decide_eq_false, <- eq_None_not_Some. done.
Qed.

Lemma deactivateUnusedItems_ids existing editorField (s : M2AStore) nodeId :
  nodeId ∈ (deactivateUnusedItems existing editorField s).1
  ↔ ∃ it, s !! nodeId = Some it ∧ active it = true
          ∧ field it = editorField ∧ nodeId ∉ existing.
Proof.
  unfold deactivateUnusedItems. simpl. rewrite list_elem_of_fmap. split.
  - intros [[k it] [-> Hin]]. apply elem_of_map_to_list in Hin.
    apply map_lookup_filter_Some in Hin as [Hk Hu]. simpl in *.
    unfold unused in Hu. apply andb_true_iff in Hu as [Hu H3].
    apply andb_true_iff in Hu as [H1 H2].
    apply bool_decide_eq_true in H2, H3. eauto.
  - intros (it & Hk & H1 & H2 & H3). exists (nodeId, it). split; [done|].
    apply elem_of_map_to_list, map_lookup_filter_Some. split; [done|]. simpl.
    unfold unused. rewrite H1. simpl.
    rewrite !bool_decide_true by done. done.
Qed.

Lemma deactivateUnusedItems_lookup existing editorField (s : M2AStore) nodeId :
  (deactivateUnusedItems existing editorField s).2 !! nodeId
  = (λ it, if unused existing editorField nodeId it then deactivate it else it)
      <$> s !! nodeId.
Proof.
  unfold deactivateUnusedItems. simpl. rewrite map_lookup_imap.
  by destruct (s !! nodeId).
Qed.

(** When every item that is active for the field is in the document, the
    store drops nothing and stays as it is. *)
Lemma deactivateUnusedItems_none existing editorField (s : M2AStore) :
  (∀ nodeId it, s !! nodeId = Some it → active it = true →
                field it = editorField → nodeId ∈ existing) →
  deactivateUnusedItems existing editorField s = ([], s).
Proof.
  intros Hall.
  assert (Hun : ∀ nodeId it, s !! nodeId = Some it →
                  unused existing editorField nodeId it = false).
  { intros nodeId it Hk. unfold unused.
    destruct (active it) eqn:Ha; [|done]. simpl.
    case_bool_decide as Hf; [|done]. simpl.
    apply bool_decide_eq_false. intros Hn. apply Hn. eauto. }
  unfold deactivateUnusedItems. f_equal.
  - replace (filter _ s) with (∅ : M2AStore); [by rewrite map_to_list_empty|].
    symmetry. apply map_empty. intros k. apply map_lookup_filter_None.
    right. intros it Hk. simpl. rewrite (Hun _ _ Hk). done.
  - apply map_eq. intros k. rewrite map_lookup_imap.
    destruct (s !! k) as [it|] eqn:Hk; [|done]. simpl.
    by rewrite (Hun _ _ Hk).
Qed.

(** ** Removal reconciliation *)

Section removal.
Context {R : Type} `{!RelationReference R} `{!UuidSource}.
Implicit Types (w : World R).

Lemma world_eq w w' :
  m2aStore w = m2aStore w' → m2aRelation w = m2aRelation w' →
  doc w = doc w' → objects w = objects w' → log w = log w' → w = w'.
Proof. destruct w, w'. simpl. by intros -> -> -> -> ->. Qed.

Lemma removal_loop (nodeIds : list UUID) w :
  let w' := foldl (λ w nodeId,
               match findDisplayItem (m2aRelation w) nodeId with
               | None => w
               | Some relatedItem => relation_deleteItem relatedItem w
               end) w nodeIds in
  ∃ calls, removal_calls (m2aRelation w) nodeIds calls (m2aRelation w')
           ∧ log w' = log w ++ calls
           ∧ m2aStore w' = m2aStore w ∧ doc w' = doc w
           ∧ objects w' = objects w.
Proof.
  revert w. induction nodeIds as [|nodeId nodeIds IH]; intros w; simpl.
  - exists []. rewrite app_nil_r. repeat split. constructor.
  - destruct (findDisplayItem (m2aRelation w) nodeId) as [i|] eqn:Hf.
    + destruct (IH (relation_deleteItem i w))
        as (calls & Hc & Hl & Hs & Hd & Ho).
      exists (DeleteItem i :: calls). simpl in *.
      rewrite Hl, Hs, Hd, Ho, <- app_assoc. repeat split.
      by apply removal_found.
    + destruct (IH w) as (calls & Hc & Hl & Hs & Hd & Ho).
      exists calls. repeat split; try done. by apply removal_missing.
Qed.

Lemma _removeRelatedItems_calls (nodeIds : list UUID) w :
  ∃ calls, removal_calls (m2aRelation w) nodeIds calls
             (m2aRelation (_removeRelatedItems nodeIds w))
           ∧ log (_removeRelatedItems nodeIds w) = log w ++ calls
           ∧ m2aStore (_removeRelatedItems nodeIds w) = m2aStore w
           ∧ doc (_removeRelatedItems nodeIds w) = doc w
           ∧ objects (_removeRelatedItems nodeIds w) = objects w.
Proof.
  unfold _removeRelatedItems. case_bool_decide as Hlen.
  - destruct nodeIds; [|done]. exists []. rewrite app_nil_r.
    repeat split. constructor.
  - apply removal_loop.
Qed.

Lemma removal_calls_are_deletes (r r' : R) nodeIds calls :
  removal_calls r nodeIds calls r' →
  Forall (λ e, ∃ i, e = DeleteItem i) calls
  ∧ (length calls ≤ length nodeIds)%nat.
Proof.
  induction 1 as [|? ? ? ? ? ? ? ? [IH1 IH2]|? ? ? ? ? ? ? [IH1 IH2]]; simpl.
  - split; [constructor | lia].
  - split; [constructor; eauto | lia].
  - split; [done | lia].
Qed.

(** C5 (removal reconciliation).  The identities the store returns are
    those that were active for this field and are absent from the
    snapshot.  The pass takes them in order: it looks each one up in the
    relation collection, issues [deleteItem] on the display item when the
    lookup succeeds and skips the identity when it fails; these are the
    only calls it makes, there is none when the list is empty, and the
    document and its node objects are left alone. *)
Theorem removed_nodes_deleted_if_found editorField
    (editorNodes : list NodeWithPos) w :
  let existingNodeIds := node_id w <$> editorNodes in
  let inactiveNodeIds :=
    (deactivateUnusedItems existingNodeIds editorField (m2aStore w)).1 in
  let w' := syncRemovedNodes editorField editorNodes w in
  (∀ nodeId, nodeId ∈ inactiveNodeIds ↔
     ∃ it, m2aStore w !! nodeId = Some it ∧ active it = true
           ∧ field it = editorField ∧ nodeId ∉ existingNodeIds)
  ∧ ∃ calls,
      removal_calls (m2aRelation w) inactiveNodeIds calls (m2aRelation w')
      ∧ log w' = log w ++ (Deactivated <$> inactiveNodeIds) ++ calls
      ∧ Forall (λ e, ∃ i, e = DeleteItem i) calls
      ∧ (inactiveNodeIds = [] → calls = [])
      ∧ doc w' = doc w
      ∧ objects w' = objects w.
Proof.
  cbv zeta. split; [apply deactivateUnusedItems_ids|].
  unfold syncRemovedNodes, store_deactivateUnusedItems.
  destruct (deactivateUnusedItems _ _ _) as [ids s] eqn:Hd. cbn [fst].
  destruct (_removeRelatedItems_calls ids
              (with_store s (Deactivated <$> ids) w))
    as (calls & Hc & Hl & Hs & Hdoc & Hobj).
  exists calls. simpl in *. rewrite Hl, Hdoc, Hobj, <- app_assoc.
  destruct (removal_calls_are_deletes _ _ _ _ Hc) as [Hdel Hlen].
  repeat split; try done.
  intros ->. destruct calls; [done | simpl in Hlen; lia].
Qed.

(** ** Orphaned nodes *)

Lemma syncRemovedNodes_nothing_unused editorField
    (editorNodes : list NodeWithPos) w :
  (∀ nodeId it, m2aStore w !! nodeId = Some it → active it = true →
                field it = editorField →
                nodeId ∈ node_id w <$> editorNodes) →
  syncRemovedNodes editorField editorNodes w = w.
Proof.
  intros Hall. unfold syncRemovedNodes, store_deactivateUnusedItems.
  rewrite (deactivateUnusedItems_none _ _ _ Hall). simpl.
  unfold _removeRelatedItems. simpl.
  apply world_eq; simpl; try done. by rewrite app_nil_r.
Qed.

Lemma syncInsertedNode_orphan editorField (nw : NodeWithPos) w memory :
  m2aStore w !! node_id w nw = None →
  syncInsertedNode editorField nw w memory = Done (w, memory).
Proof.
  intros Hk. unfold syncInsertedNode.
  by rewrite (proj2 (itemExists_false _ _) Hk).
Qed.

Lemma forEach_node_orphans editorField (editorNodes : list NodeWithPos) w memory :
  Forall (λ nw, m2aStore w !! node_id w nw = None) editorNodes →
  forEach_node editorField editorNodes w memory = Done (w, memory).
Proof.
  induction 1 as [|nw rest Hnw _ IH]; simpl; [done|].
  by rewrite syncInsertedNode_orphan, IH.
Qed.

(** C7 (orphan skip).  A node whose identity has no item in the store is
    skipped: the callback returns the world (the node objects with it)
    and the memory as they were, without raising.  When no item is
    active for this field, a document whose reference nodes are all of
    this kind (a single one in particular) leaves the whole pass without
    any effect. *)
Theorem orphan_node_skipped editorField w :
  (∀ nw w' memory, m2aStore w' !! node_id w' nw = None →
     syncInsertedNode editorField nw w' memory = Done (w', memory))
  ∧ ((∀ nodeId it, m2aStore w !! nodeId = Some it → active it = true →
                   field it ≠ editorField) →
     Forall (λ nw, m2aStore w !! node_id w nw = None)
            (_getExistingEditorNodes w) →
     syncRelationNodes editorField w = Done w).
Proof.
  split; [intros; by apply syncInsertedNode_orphan|].
  intros Hact Horph. unfold syncRelationNodes, syncInsertedNodes.
  rewrite syncRemovedNodes_nothing_unused.
  - by rewrite forEach_node_orphans.
  - intros nodeId it Hk Ha Hf. by destruct (Hact _ _ Hk Ha).
Qed.
End removal.

(** ** The document and its node objects *)

Lemma elem_of_snoc {A} (l : list A) (x y : A) : x ∈ l ++ [y] ↔ x ∈ l ∨ x = y.
Proof. rewrite elem_of_app, list_elem_of_singleton. done. Qed.

Lemma nodeAt_Some (d : PMDoc) (p : nat) (o : nat) :
  nodeAt d p = Some o ↔ (p < content_size d)%nat ∧ starts d !! p = Some o.
Proof.
  unfold nodeAt. case_decide as Hlt.
  - split; [done | by intros [_ ?]].
  - split; [done | by intros [? _]].
Qed.

Lemma elem_of_descendants (d : PMDoc) (nw : NodeWithPos) :
  nw ∈ descendants d ↔ nodeAt d (pos nw) = Some (node nw).
Proof.
  unfold descendants. rewrite list_elem_of_omap. split.
  - intros (p & _ & Hp). destruct (nodeAt d p) as [o|] eqn:Hn; [|done].
    simpl in Hp. simplify_eq. done.
  - intros Hn. exists (pos nw). split.
    + apply elem_of_seq. apply nodeAt_Some in Hn. lia.
    + rewrite Hn. simpl. by destruct nw.
Qed.

Lemma omap_pos_NoDup (f : nat → option nat) (l : list nat) :
  NoDup l →
  NoDup (pos <$> omap (λ p, (λ o, {| node := o; pos := p |}) <$> f p) l).
Proof.
  induction 1 as [|p l Hp Hl IH]; simpl; [constructor|].
  destruct (f p) as [o|]; simpl; [|done].
  constructor; [|done].
  intros (nw & Hpos & Hin)%list_elem_of_fmap.
  apply list_elem_of_omap in Hin as (q & Hq & Hfq).
  destruct (f q); [|done]. simpl in Hfq. simplify_eq. done.
Qed.

Lemma descendants_pos_NoDup (d : PMDoc) : NoDup (pos <$> descendants d).
Proof. apply omap_pos_NoDup, NoDup_seq. Qed.

Lemma new_object_not_live {R} (w : World R) :
  ¬ live w (new_object (objects w) (doc w)).
Proof.
  unfold live, new_object. intros Hl.
  apply (is_fresh (dom (objects w) ∪ map_img (starts (doc w)))).
  destruct Hl as [Hl|[p Hp]].
  - apply elem_of_union_l. by apply elem_of_dom.
  - apply elem_of_union_r. apply elem_of_map_img. eauto.
Qed.

Lemma patched_same_id (n : PMNode) : patched (attrs_id (attrs n)) n = n.
Proof. by destruct n as [ty [i r]]. Qed.

Section document.
Context {R : Type} `{!RelationReference R}.
Implicit Types (w : World R).

Lemma elem_of_existing_nodes w nw :
  nw ∈ _getExistingEditorNodes w
  ↔ nodeAt (doc w) (pos nw) = Some (node nw) ∧ is_relation_block w nw.
Proof.
  unfold _getExistingEditorNodes.
  rewrite list_elem_of_filter, elem_of_descendants. tauto.
Qed.

Lemma existing_nodes_pos_NoDup w : NoDup (pos <$> _getExistingEditorNodes w).
Proof.
  unfold _getExistingEditorNodes.
  eapply sublist_NoDup; [apply descendants_pos_NoDup|].
  apply fmap_sublist, sublist_filter.
Qed.

Lemma nodeAt_live w (p : nat) (o : nat) : nodeAt (doc w) p = Some o → live w o.
Proof. intros [_ Hs]%nodeAt_Some. right. eauto. Qed.

Lemma setNodeMarkup_done (p : nat) (a : Attrs) w (o : nat) :
  nodeAt (doc w) p = Some o →
  type_name (deref (objects w) o) ≠ "text" →
  setNodeMarkup p a w
  = Done ({| content_size := content_size (doc w);
             starts := <[p := new_object (objects w) (doc w)]> (starts (doc w)) |},
          <[new_object (objects w) (doc w) :=
              {| type_name := type_name (deref (objects w) o); attrs := a |}]>
            (objects w)).
Proof.
  intros Hn Ht. unfold setNodeMarkup. rewrite Hn. by rewrite decide_False.
Qed.

Lemma setNodeMarkup_no_node (p : nat) (a : Attrs) w :
  nodeAt (doc w) p = None → setNodeMarkup p a w = Threw.
Proof. intros Hn. unfold setNodeMarkup. by rewrite Hn. Qed.

(** [_refreshEditorNodeId] on an entry the document holds at its
    position. *)
Lemma _refreshEditorNodeId_held (newId : UUID) (nw : NodeWithPos) w :
  nodeAt (doc w) (pos nw) = Some (node nw) →
  type_name (deref (objects w) (node nw)) ≠ "text" →
  _refreshEditorNodeId newId nw w
  = Done {| m2aStore := m2aStore w; m2aRelation := m2aRelation w;
            doc := refreshed_doc (doc w) (objects w) nw;
            objects := refreshed_objects (doc w) (objects w) nw newId;
            log := log w ++ [Dispatch (silent_patch newId
                                         (deref (objects w) (node nw))
                                         (pos nw))] |}.
Proof.
  intros Hn Ht. unfold _refreshEditorNodeId, _updateNodeAttrs.
  rewrite (setNodeMarkup_done _ _ _ _ Hn Ht).
  unfold assign_attrs, dispatch, refreshed_doc, refreshed_objects, patched,
    silent_patch. simpl.
  assert (node nw ≠ new_object (objects w) (doc w)) as Hne.
  { intros Heq. apply (new_object_not_live w). rewrite <- Heq.
    by eapply nodeAt_live. }
  unfold deref at 1. rewrite lookup_insert_ne by done. done.
Qed.

(** What such a refresh leaves alone, and what the document and the
    entry's object read afterwards. *)
Lemma refreshed_frame (newId : UUID) (nw : NodeWithPos) w w' :
  nodeAt (doc w) (pos nw) = Some (node nw) →
  doc w' = refreshed_doc (doc w) (objects w) nw →
  objects w' = refreshed_objects (doc w) (objects w) nw newId →
  editor_frame nw w w'
  ∧ nodeAt (doc w') (pos nw) = Some (new_object (objects w) (doc w))
  ∧ deref (objects w') (new_object (objects w) (doc w))
    = patched newId (deref (objects w) (node nw))
  ∧ deref (objects w') (node nw) = patched newId (deref (objects w) (node nw)).
Proof.
  intros Hn Hd Ho.
  pose proof (new_object_not_live w) as Hfresh.
  set (o' := new_object (objects w) (doc w)) in *.
  assert (node nw ≠ o') as Hne.
  { intros Heq. apply Hfresh. rewrite <- Heq. by eapply nodeAt_live. }
  assert (Hat : nodeAt (doc w') (pos nw) = Some o').
  { apply nodeAt_Some in Hn as [Hlt _]. apply nodeAt_Some.
    rewrite Hd. simpl. by rewrite lookup_insert_eq. }
  assert (Hnew : deref (objects w') o'
                 = patched newId (deref (objects w) (node nw))).
  { unfold deref at 1. rewrite Ho. unfold refreshed_objects. fold o'.
    rewrite lookup_insert_ne by done. by rewrite lookup_insert_eq. }
  split; [|split; [done|split]].
  - split.
    + by rewrite Hd.
    + intros q Hq. unfold nodeAt. rewrite Hd. simpl.
      by rewrite lookup_insert_ne.
    + intros o Hon Hl. rewrite Ho. unfold refreshed_objects. fold o'.
      rewrite lookup_insert_ne by done. rewrite lookup_insert_ne; [done|].
      intros <-. by apply Hfresh.
    + intros o [Hl|[p Hp]].
      * left. rewrite Ho. unfold refreshed_objects.
        destruct (decide (o = node nw)) as [->|Hon];
          [rewrite lookup_insert_eq; eauto|].
        rewrite lookup_insert_ne by done.
        destruct (decide (o = o')) as [->|Hoo];
          [rewrite lookup_insert_eq; eauto|].
        by rewrite lookup_insert_ne.
      * destruct (decide (p = pos nw)) as [->|Hp'].
        -- left. apply nodeAt_Some in Hn as [_ Hs]. rewrite Hs in Hp.
           simplify_eq. rewrite Ho. unfold refreshed_objects.
           rewrite lookup_insert_eq. eauto.
        -- right. exists p. rewrite Hd. simpl. by rewrite lookup_insert_ne.
  - done.
  - unfold deref at 1. rewrite Ho. unfold refreshed_objects.
    by rewrite lookup_insert_eq.
Qed.

(** What the other positions read after a callback on one entry. *)
Lemma frame_reading (nw : NodeWithPos) w w' (n : PMNode) :
  editor_frame nw w w' →
  deref (objects w') (node nw) = n →
  ∀ q, q ≠ pos nw →
    read_at w' q = if decide (nodeAt (doc w) q = Some (node nw))
                   then Some n else read_at w q.
Proof.
  intros [Hsz Hpos Hobj Hlive] Hnode q Hq. unfold read_at.
  rewrite (Hpos q Hq). case_decide as Hat.
  - rewrite Hat. simpl. by rewrite Hnode.
  - destruct (nodeAt (doc w) q) as [o|] eqn:Hn; [|done]. simpl. f_equal.
    unfold deref. rewrite Hobj; [done| |by eapply nodeAt_live].
    intros ->. by apply Hat.
Qed.

Lemma editor_frame_refl (nw : NodeWithPos) w w' :
  doc w' = doc w → objects w' = objects w → editor_frame nw w w'.
Proof.
  intros Hd Ho. split; unfold live; intros; rewrite ?Hd, ?Ho; done.
Qed.
End document.

(** ** The callback of the insertion loop, case by case *)

Section node.
Context {R : Type} `{!RelationReference R} `{!UuidSource}.
Implicit Types (w : World R) (it : M2AStoreItem).

Lemma record_result nodeId memory :
  nodeIdUniqueInEditor nodeId memory
  = (negb (bool_decide (nodeId ∈ nodeIds memory)),
     {| nodeIds := nodeIds memory ++ [nodeId] |}).
Proof. unfold nodeIdUniqueInEditor. by rewrite indexOf_negative. Qed.

Lemma replace_after_record (nodeId newId : UUID) memory :
  replaceLastItem newId {| nodeIds := nodeIds memory ++ [nodeId] |}
  = {| nodeIds := nodeIds memory ++ [newId] |}.
Proof. unfold replaceLastItem. simpl. by rewrite splice_last. Qed.

(** The duplicate case, spelled out: it raises when [setNodeMarkup]
    does. *)
Lemma syncInsertedNode_duplicate editorField (nw : NodeWithPos) w memory it :
  m2aStore w !! node_id w nw = Some it →
  active it = true →
  node_id w nw ∈ nodeIds memory ∨ field it ≠ editorField →
  let newId := new_uuid (m2aStore w) in
  let s := <[newId := duplicate_of it]> (m2aStore w) in
  let a := attrs (patched newId (deref (objects w) (node nw))) in
  syncInsertedNode editorField nw w memory
  = match setNodeMarkup (pos nw) a w with
    | Threw => Threw
    | Done (d, h) =>
        Done ({| m2aStore := if bool_decide (field it ≠ editorField)
                             then setField newId editorField s else s;
                 m2aRelation := create (item it) (m2aRelation w);
                 doc := d;
                 objects :=
                   <[node nw := {| type_name := type_name (deref h (node nw));
                                   attrs := a |}]> h;
                 log := log w
                        ++ [DuplicateItem (node_id w nw) newId;
                            Dispatch (silent_patch newId
                                        (deref (objects w) (node nw)) (pos nw))]
                        ++ claim_events newId editorField it
                        ++ [Create (item it)] |},
              {| nodeIds := nodeIds memory ++ [newId] |})
    end.
Proof.
  intros Hk Ha Hdup newId s a. unfold syncInsertedNode.
  rewrite (proj2 (itemExists_true _ _)) by (rewrite Hk; eauto). cbn [negb].
  rewrite record_result. unfold itemIsActive, itemFromDifferentEditor.
  rewrite Hk. simpl. rewrite Ha. simpl.
  replace (negb (bool_decide (node_id w nw ∈ nodeIds memory))
           && negb (bool_decide (field it ≠ editorField))) with false; cycle 1.
  { destruct Hdup as [Hin|Hne].
    - by rewrite (bool_decide_true _ Hin).
    - rewrite (bool_decide_true _ Hne). simpl. by rewrite andb_false_r. }
  unfold store_duplicateItem, duplicateItem. rewrite Hk. simpl.
  fold newId. fold s.
  unfold _refreshEditorNodeId, _updateNodeAttrs.
  change (setNodeMarkup (pos nw) ?x (with_store s ?evs w))
    with (setNodeMarkup (pos nw) x w).
  change (objects (with_store s ?evs w)) with (objects w).
  change {| attrs_id := newId;
            attrs_rest := attrs_rest (attrs (deref (objects w) (node nw))) |}
    with a.
  destruct (setNodeMarkup (pos nw) a w) as [[d h]|]; [|done].
  rewrite replace_after_record.
  unfold claim_events.
  case_bool_decide as Hf; simpl.
  - unfold getItem, itemIsNew, setField. simpl. rewrite lookup_alter_eq.
    subst s. rewrite lookup_insert_eq. simpl.
    unfold relation_create, with_relation, silent_patch. simpl.
    by rewrite <- !app_assoc.
  - unfold getItem, itemIsNew. simpl. subst s. rewrite lookup_insert_eq. simpl.
    unfold relation_create, with_relation, silent_patch. simpl.
    by rewrite <- !app_assoc.
Qed.

(** The duplicate case for an entry the document holds at its position. *)
Lemma syncInsertedNode_duplicate_held editorField (nw : NodeWithPos) w memory it :
  nodeAt (doc w) (pos nw) = Some (node nw) →
  type_name (deref (objects w) (node nw)) ≠ "text" →
  m2aStore w !! node_id w nw = Some it →
  active it = true →
  node_id w nw ∈ nodeIds memory ∨ field it ≠ editorField →
  let newId := new_uuid (m2aStore w) in
  let s := <[newId := duplicate_of it]> (m2aStore w) in
  syncInsertedNode editorField nw w memory
  = Done ({| m2aStore := if bool_decide (field it ≠ editorField)
                         then setField newId editorField s else s;
             m2aRelation := create (item it) (m2aRelation w);
             doc := refreshed_doc (doc w) (objects w) nw;
             objects := refreshed_objects (doc w) (objects w) nw newId;
             log := log w
                    ++ [DuplicateItem (node_id w nw) newId;
                        Dispatch (silent_patch newId
                                    (deref (objects w) (node nw)) (pos nw))]
                    ++ claim_events newId editorField it
                    ++ [Create (item it)] |},
          {| nodeIds := nodeIds memory ++ [newId] |}).
Proof.
  intros Hn Ht Hk Ha Hdup newId s.
  rewrite (syncInsertedNode_duplicate _ _ _ _ _ Hk Ha Hdup). cbv zeta.
  rewrite (setNodeMarkup_done _ _ _ _ Hn Ht).
  assert (node nw ≠ new_object (objects w) (doc w)) as Hne.
  { intros Heq. apply (new_object_not_live w). rewrite <- Heq.
    by eapply nodeAt_live. }
  assert (Hd : ∀ x, deref (<[new_object (objects w) (doc w) := x]> (objects w))
                      (node nw) = deref (objects w) (node nw)).
  { intros x. unfold deref. by rewrite lookup_insert_ne. }
  rewrite Hd. done.
Qed.

(** The reactivation case, spelled out. *)
Lemma syncInsertedNode_activate editorField (nw : NodeWithPos) w memory it :
  m2aStore w !! node_id w nw = Some it →
  active it = false →
  let nodeId := node_id w nw in
  let it' := claimed editorField it in
  let s := <[nodeId := it']> (m2aStore w) in
  let evs := ActivateItem nodeId :: claim_events nodeId editorField it in
  let memory' := {| nodeIds := nodeIds memory ++ [nodeId] |} in
  let r := m2aRelation w in
  let relatedItem := findDisplayItem r nodeId in
  let r1 := remove relatedItem r in
  syncInsertedNode editorField nw w memory
  = if isNew it
    then Done ({| m2aStore := s; m2aRelation := create (item it) r;
                  doc := doc w; objects := objects w;
                  log := log w ++ evs ++ [Create (item it)] |}, memory')
    else match edits it with
         | None =>
             Done ({| m2aStore := s; m2aRelation := r1; doc := doc w;
                      objects := objects w;
                      log := log w ++ evs ++ [Remove relatedItem] |},
                   memory')
         | Some pending =>
             match findDisplayItem r1 nodeId with
             | None =>
                 Done ({| m2aStore := s; m2aRelation := update pending r1;
                          doc := doc w; objects := objects w;
                          log := log w ++ evs ++ [Remove relatedItem;
                                                  Update pending] |},
                       memory')
             | Some displayItem =>
                 let e := merged_edits pending displayItem in
                 Done ({| m2aStore :=
                            <[nodeId := {| item := item it; edits := Some e;
                                           active := true; isNew := isNew it;
                                           field := field it' |}]> s;
                          m2aRelation := update e r1;
                          doc := doc w; objects := objects w;
                          log := log w ++ evs ++ [Remove relatedItem;
                                                  Update e] |},
                       memory')
             end
         end.
Proof.
  intros Hk Ha nodeId it' s evs memory' r relatedItem r1.
  unfold syncInsertedNode. fold nodeId. fold nodeId in Hk.
  rewrite (proj2 (itemExists_true _ _)) by (rewrite Hk; eauto). cbn [negb].
  rewrite record_result. unfold itemIsActive, itemFromDifferentEditor.
  rewrite Hk. simpl. rewrite Ha. simpl.
  assert (Hs : (if bool_decide (field it ≠ editorField)
                then setField nodeId editorField
                       (activateItem nodeId (m2aStore w))
                else activateItem nodeId (m2aStore w)) = s).
  { subst s it'. unfold claimed. apply map_eq. intros k.
    case_bool_decide; unfold setField, activateItem;
      destruct (decide (k = nodeId)) as [->|Hne].
    - rewrite !lookup_alter_eq, lookup_insert_eq, Hk. done.
    - by rewrite !lookup_alter_ne, lookup_insert_ne.
    - rewrite !lookup_alter_eq, lookup_insert_eq, Hk. done.
    - by rewrite !lookup_alter_ne, lookup_insert_ne. }
  assert (Hw : (if bool_decide (field it ≠ editorField)
                then store_setField nodeId editorField
                       (store_activateItem nodeId w)
                else store_activateItem nodeId w)
               = {| m2aStore := s; m2aRelation := r; doc := doc w;
                    objects := objects w; log := log w ++ evs |}).
  { rewrite <- Hs. subst evs. unfold claim_events.
    case_bool_decide; unfold store_setField, store_activateItem, with_store;
      simpl; by rewrite <- ?app_assoc. }
  rewrite Hw. unfold getItem, itemIsNew. simpl.
  subst s. rewrite lookup_insert_eq. simpl.
  destruct (isNew it) eqn:Hn; simpl.
  - unfold relation_create, with_relation. simpl. by rewrite <- app_assoc.
  - unfold _reactivateRelatedItem, relation_remove, with_relation. simpl.
    fold r relatedItem r1.
    destruct (edits it) as [pending|] eqn:He.
    + unfold _mergeUpdatedValues. simpl.
      destruct (findDisplayItem r1 nodeId) as [displayItem|] eqn:Hf; simpl.
      * unfold relation_update, with_relation, with_store. simpl.
        rewrite Hn. by rewrite app_nil_r, <- !app_assoc.
      * unfold relation_update, with_relation. simpl.
        by rewrite <- !app_assoc.
    + by rewrite <- app_assoc.
Qed.

(** The no-op case. *)
Lemma syncInsertedNode_unchanged editorField (nw : NodeWithPos) w memory it :
  m2aStore w !! node_id w nw = Some it →
  active it = true →
  node_id w nw ∉ nodeIds memory →
  field it = editorField →
  syncInsertedNode editorField nw w memory
  = Done (w, {| nodeIds := nodeIds memory ++ [node_id w nw] |}).
Proof.
  intros Hk Ha Hnin Hf. unfold syncInsertedNode.
  rewrite (proj2 (itemExists_true _ _)) by (rewrite Hk; eauto). cbn [negb].
  rewrite record_result. unfold itemIsActive, itemFromDifferentEditor.
  rewrite Hk. simpl. rewrite Ha. simpl.
  rewrite (bool_decide_false _ Hnin). simpl.
  rewrite bool_decide_false by (intros Hne; by apply Hne). done.
Qed.
End node.

(** ** One step of the loop *)

Section steps.
Context {R : Type} `{!RelationReference R} `{!UuidSource}.
Implicit Types (w : World R) (it : M2AStoreItem).

Lemma setField_insert (nodeId : UUID) editorField it (s : M2AStore) :
  setField nodeId editorField (<[nodeId := it]> s)
  = <[nodeId := {| item := item it; edits := edits it; active := active it;
                   isNew := isNew it; field := editorField |}]> s.
Proof.
  unfold setField. apply map_eq. intros k.
  destruct (decide (k = nodeId)) as [->|Hne].
  - by rewrite lookup_alter_eq, !lookup_insert_eq.
  - by rewrite lookup_alter_ne, !lookup_insert_ne.
Qed.

Lemma field_claimed editorField it : field (claimed editorField it) = editorField.
Proof.
  unfold claimed. simpl. case_bool_decide as Hf; [done|].
  destruct (decide (field it = editorField)); [done|]. by destruct Hf.
Qed.

(** One callback on an entry the document holds at its position: it
    completes; the store, the memory and the identity follow
    [node_step]; and either the editor is as it was, or the entry was
    refreshed to an identity the store did not have. *)
Lemma syncInsertedNode_step editorField (nw : NodeWithPos) w memory :
  nodeAt (doc w) (pos nw) = Some (node nw) →
  type_name (deref (objects w) (node nw)) ≠ "text" →
  ∃ w' memory' nodeId',
    syncInsertedNode editorField nw w memory = Done (w', memory')
    ∧ node_step editorField (m2aStore w) (nodeIds memory) (node_id w nw)
                (m2aStore w') (nodeIds memory') nodeId'
    ∧ ((nodeId' = node_id w nw ∧ doc w' = doc w ∧ objects w' = objects w)
       ∨ (m2aStore w !! nodeId' = None
          ∧ doc w' = refreshed_doc (doc w) (objects w) nw
          ∧ objects w' = refreshed_objects (doc w) (objects w) nw nodeId')).
Proof.
  intros Hn Ht.
  destruct (m2aStore w !! node_id w nw) as [it|] eqn:Hk.
  2:{ exists w, memory, (node_id w nw).
      rewrite syncInsertedNode_orphan by done.
      split; [done|]. split; [by constructor | by left]. }
  destruct (active it) eqn:Ha.
  - destruct (decide (node_id w nw ∈ nodeIds memory ∨ field it ≠ editorField))
      as [Hdup|Hno].
    + rewrite (syncInsertedNode_duplicate_held _ _ _ _ _ Hn Ht Hk Ha Hdup).
      eexists _, _, _. split; [reflexivity|]. simpl. split.
      * case_bool_decide as Hf.
        -- rewrite setField_insert. by eapply step_duplicate.
        -- eapply step_duplicate; eauto.
      * right. split; [apply new_uuid_fresh | done].
    + assert (node_id w nw ∉ nodeIds memory) as Hnin by tauto.
      assert (field it = editorField) as Hf
        by (destruct (decide (field it = editorField)); tauto).
      rewrite (syncInsertedNode_unchanged _ _ _ _ _ Hk Ha Hnin Hf).
      eexists _, _, _. split; [reflexivity|]. simpl.
      split; [by eapply step_unchanged | by left].
  - rewrite (syncInsertedNode_activate _ _ _ _ _ Hk Ha).
    pose proof (field_claimed editorField it) as Hfc.
    destruct (isNew it); [|destruct (edits it);
      [destruct (findDisplayItem _ _)|]];
      (eexists _, _, _; split; [reflexivity|]; simpl;
       split; [|by left]).
    1,3,4: by eapply step_activate.
    rewrite insert_insert_eq. by eapply step_activate.
Qed.

(** What the step leaves alone in the editor, and what the entry's
    position and object read afterwards. *)
Lemma step_editor (nw : NodeWithPos) w w' (nodeId' : UUID) :
  nodeAt (doc w) (pos nw) = Some (node nw) →
  (nodeId' = node_id w nw ∧ doc w' = doc w ∧ objects w' = objects w)
  ∨ (m2aStore w !! nodeId' = None
     ∧ doc w' = refreshed_doc (doc w) (objects w) nw
     ∧ objects w' = refreshed_objects (doc w) (objects w) nw nodeId') →
  editor_frame nw w w'
  ∧ (∃ o1 : nat,
       nodeAt (doc w') (pos nw) = Some o1
       ∧ (o1 = node nw ∨ ¬ live w o1)
       ∧ deref (objects w') o1 = patched nodeId' (deref (objects w) (node nw)))
  ∧ deref (objects w') (node nw) = patched nodeId' (deref (objects w) (node nw)).
Proof.
  intros Hn [(-> & Hd & Ho)|(_ & Hd & Ho)].
  - split; [by apply editor_frame_refl|].
    unfold node_id. rewrite Hd, Ho, patched_same_id. split; [|done].
    exists (node nw). split; [done|]. split; [by left | done].
  - destruct (refreshed_frame nodeId' nw w w' Hn Hd Ho) as (? & ? & ? & ?).
    split; [done|]. split; [|done].
    eexists. split; [done|]. split; [|done].
    right. apply new_object_not_live.
Qed.
End steps.

(** ** The invariant of the insertion loop *)

Section invariant.
Context `{!UuidSource}.
Implicit Types (s : M2AStore) (m seen : list UUID).

Lemma loop_inv_start editorField s0 : loop_inv editorField s0 [] s0 [].
Proof.
  split; try done.
  - intros x Hx. by apply elem_of_nil in Hx.
  - intros x Hx. by apply elem_of_nil in Hx.
  - intros x Hx. by apply elem_of_nil in Hx.
  - constructor.
  - intros x it Hx _ _. right. split; [apply not_elem_of_nil | done].
Qed.

Lemma node_step_memory editorField s m nodeId s' m' nodeId' :
  node_step editorField s m nodeId s' m' nodeId' →
  (s !! nodeId = None ∧ s' = s ∧ m' = m ∧ nodeId' = nodeId)
  ∨ (is_Some (s !! nodeId) ∧ is_Some (s' !! nodeId') ∧ m' = m ++ [nodeId']).
Proof.
  intros Hstep. destruct Hstep; [by left|right..].
  - eauto.
  - rewrite lookup_insert_eq. eauto.
  - rewrite lookup_insert_eq. eauto.
Qed.

Lemma loop_inv_step editorField s0 seen s m nodeId s' m' nodeId' :
  loop_inv editorField s0 seen s m →
  node_step editorField s m nodeId s' m' nodeId' →
  loop_inv editorField s0 (seen ++ [nodeId]) s' m'.
Proof.
  intros [Hgrow Hunt Hseen Hmem Horig Hnd Hown] Hstep.
  assert (Hm_in : ∀ x, x ∈ m → is_Some (s !! x)).
  { intros x Hx. destruct (Hmem x Hx) as (it & -> & _). eauto. }
  destruct Hstep as [Hk | it Hk Ha Hf Hnin | it y Hk Ha Hdup Hay Hfy
                     | it y Hk Ha Hay Hfy].
  - (* orphan *)
    split; try done.
    + intros x Hx. apply Hunt. intros ?. apply Hx, elem_of_app. by left.
    + intros x [Hx|Hx]%elem_of_snoc Hs0; [by apply Hseen|].
      subst x. apply Hgrow in Hs0. rewrite Hk in Hs0. by destruct Hs0.
    + intros x Hx. destruct (Horig x Hx); [left|by right].
      apply elem_of_snoc. by left.
    + intros x it Hx Hact Hfld. destruct (Hown x it Hx Hact Hfld) as [?|[Hns Hs0]];
        [by left|right]. split; [|done].
      intros [?| ->]%elem_of_snoc; [done|congruence].
  - (* unchanged *)
    split; try done.
    + intros x Hx. apply Hunt. intros ?. apply Hx, elem_of_app. by left.
    + intros x [Hx|Hx]%elem_of_snoc Hs0.
      * destruct (Hseen x Hx Hs0) as (it' & ? & ? & [?|?]).
        -- exists it'. repeat split; try done. left. apply elem_of_snoc. by left.
        -- exists it'. repeat split; try done. by right.
      * subst x. exists it. repeat split; try done. left.
        apply elem_of_snoc. by right.
    + intros x [Hx| ->]%elem_of_snoc; [by apply Hmem|].
      eauto.
    + intros x [Hx| ->]%elem_of_snoc.
      * destruct (Horig x Hx); [left|by right]. apply elem_of_snoc. by left.
      * left. apply elem_of_snoc. by right.
    + apply NoDup_app. repeat split; [done| |apply NoDup_singleton].
      intros x Hx Hx'%list_elem_of_singleton; subst x. done.
    + intros x it' Hx Hact Hfld.
      destruct (Hown x it' Hx Hact Hfld) as [?|[Hns Hs0]].
      * left. apply elem_of_snoc. by left.
      * destruct (decide (x = nodeId)) as [->|Hne].
        -- left. apply elem_of_snoc. by right.
        -- right. split; [|done].
           intros [?|?]%elem_of_snoc; done.
  - (* duplicate *)
    pose proof (new_uuid_fresh s) as Hfresh.
    assert (Hne_in : ∀ x, is_Some (s !! x) → new_uuid s ≠ x).
    { intros x Hx <-. rewrite Hfresh in Hx. by destruct Hx. }
    split.
    + intros x Hx. rewrite lookup_insert_is_Some'. right. by apply Hgrow.
    + intros x Hx Hs0. rewrite lookup_insert_ne by (apply Hne_in; auto).
      apply Hunt; [|done]. intros ?. apply Hx, elem_of_app. by left.
    + intros x Hx Hs0. rewrite lookup_insert_ne by (apply Hne_in; auto).
      apply elem_of_snoc in Hx as [Hx|Hx].
      * destruct (Hseen x Hx Hs0) as (it' & ? & ? & [?|?]).
        -- exists it'. repeat split; try done. left. apply elem_of_snoc. by left.
        -- exists it'. repeat split; try done. by right.
      * subst x. exists it. repeat split; try done.
        destruct Hdup; [left|by right]. apply elem_of_snoc. by left.
    + intros x [Hx| ->]%elem_of_snoc.
      * rewrite lookup_insert_ne by (apply Hne_in; auto). by apply Hmem.
      * rewrite lookup_insert_eq. eauto.
    + intros x [Hx| ->]%elem_of_snoc.
      * destruct (Horig x Hx); [left|by right]. apply elem_of_snoc. by left.
      * right. destruct (s0 !! new_uuid s) eqn:Hs0; [|done].
        assert (is_Some (s !! new_uuid s)) as Hin by (apply Hgrow; eauto).
        rewrite Hfresh in Hin. by destruct Hin.
    + apply NoDup_app. repeat split; [done| |apply NoDup_singleton].
      intros x Hx Hx'%list_elem_of_singleton; subst x.
      apply Hm_in in Hx. rewrite Hfresh in Hx. by destruct Hx.
    + intros x it' Hx Hact Hfld.
      destruct (decide (x = new_uuid s)) as [->|Hne].
      { left. apply elem_of_snoc. by right. }
      rewrite lookup_insert_ne in Hx by done.
      destruct (Hown x it' Hx Hact Hfld) as [?|[Hns Hs0]].
      * left. apply elem_of_snoc. by left.
      * destruct (decide (x = nodeId)) as [->|Hne'].
        -- left. apply elem_of_app. left.
           destruct Hdup as [?|Hd]; [done|]. congruence.
        -- right. split; [|done].
           intros [?|?]%elem_of_snoc; done.
  - (* activate *)
    assert (Hact_ne : ∀ x it', s !! x = Some it' → active it' = true →
                               x ≠ nodeId).
    { intros x it' Hx Hact ->. congruence. }
    split.
    + intros x Hx. rewrite lookup_insert_is_Some'. right. by apply Hgrow.
    + intros x Hx Hs0. rewrite lookup_insert_ne.
      * apply Hunt; [|done]. intros ?. apply Hx, elem_of_app. by left.
      * intros <-. apply Hx, elem_of_app. right. by apply list_elem_of_singleton.
    + intros x [Hx| ->]%elem_of_snoc Hs0.
      * destruct (Hseen x Hx Hs0) as (it' & Hk' & ? & Hor).
        rewrite lookup_insert_ne by (symmetry; eauto).
        exists it'. repeat split; try done.
        destruct Hor; [left|by right]. apply elem_of_snoc. by left.
      * rewrite lookup_insert_eq. exists y. repeat split; try done. left.
        apply elem_of_snoc. by right.
    + intros x [Hx| ->]%elem_of_snoc.
      * destruct (Hmem x Hx) as (it' & Hk' & ? & ?).
        rewrite lookup_insert_ne by (symmetry; eauto). eauto.
      * rewrite lookup_insert_eq. eauto.
    + intros x [Hx| ->]%elem_of_snoc.
      * destruct (Horig x Hx); [left|by right]. apply elem_of_snoc. by left.
      * left. apply elem_of_snoc. by right.
    + apply NoDup_app. repeat split; [done| |apply NoDup_singleton].
      intros x Hx Hx'%list_elem_of_singleton; subst x.
      destruct (Hmem _ Hx) as (it' & Hk' & ? & ?). congruence.
    + intros x it' Hx Hact Hfld.
      destruct (decide (x = nodeId)) as [->|Hne].
      { left. apply elem_of_snoc. by right. }
      rewrite lookup_insert_ne in Hx by done.
      destruct (Hown x it' Hx Hact Hfld) as [?|[Hns Hs0]].
      * left. apply elem_of_snoc. by left.
      * right. split; [|done].
        intros [?|?]%elem_of_snoc; done.
Qed.

(** Which identity a node ends up with. *)
Lemma node_step_identity editorField s0 seen s m nodeId s' m' nodeId' it0 :
  loop_inv editorField s0 seen s m →
  node_step editorField s m nodeId s' m' nodeId' →
  s0 !! nodeId = Some it0 →
  if reidentified editorField seen nodeId it0
  then s0 !! nodeId' = None
  else nodeId' = nodeId.
Proof.
  intros [Hgrow Hunt Hseen Hmem Horig Hnd Hown] Hstep Hs0.
  assert (Hfresh0 : s0 !! new_uuid s = None).
  { destruct (s0 !! new_uuid s) eqn:Hq; [|done].
    assert (is_Some (s !! new_uuid s)) as Hin by (apply Hgrow; eauto).
    rewrite new_uuid_fresh in Hin. by destruct Hin. }
  unfold reidentified. case_bool_decide as Hin; simpl.
  - destruct (Hseen nodeId Hin ltac:(eauto)) as (it & Hk & Ha & Hor).
    destruct Hstep; try done; try congruence.
    destruct Hor; [done | congruence].
  - assert (s !! nodeId = Some it0) as Hk
      by (rewrite <- Hs0; apply Hunt; eauto).
    destruct Hstep as [Hk' | it Hk' Ha Hf Hnin | it y Hk' Ha Hdup Hay Hfy
                       | it y Hk' Ha Hay Hfy];
      rewrite Hk in Hk'; simplify_eq.
    + rewrite Ha. simpl. rewrite bool_decide_false; [done|]. by intros ?.
    + rewrite Ha. simpl. case_bool_decide as Hf; [done|].
      destruct Hdup as [Hm|?]; [|done].
      destruct (Horig _ Hm); [done | congruence].
    + by rewrite Ha.
Qed.
End invariant.

(** ** The insertion loop *)

Lemma same_reading_refl {R} (w : World R) : same_reading w w.
Proof.
  split; [done|]. intros p. destruct (read_at w p); constructor. done.
Qed.

Lemma same_reading_trans {R} (w1 w2 w3 : World R) :
  same_reading w1 w2 → same_reading w2 w3 → same_reading w1 w3.
Proof.
  intros [Hs12 H12] [Hs23 H23]. split; [congruence|]. intros p.
  specialize (H12 p). specialize (H23 p).
  destruct H12 as [n1 n2 (Ht & Hr & Hn)|]; inversion H23 as [? n3 (Ht' & Hr' & Hn')|];
    simplify_eq; constructor.
  split; [congruence|]. split; [congruence|].
  intros Hrb. rewrite Hn', Hn; [done..|]. rewrite Hn by done. done.
Qed.

Section loop.
Context {R : Type} `{!RelationReference R} `{!UuidSource}.
Implicit Types (w : World R) (s : M2AStore).

(** A callback on a reference node changes the reading of the document
    in identities only. *)
Lemma step_same_reading (nw : NodeWithPos) w w' (nodeId' : UUID) :
  nw ∈ _getExistingEditorNodes w →
  editor_frame nw w w' →
  (∃ o1 : nat,
     nodeAt (doc w') (pos nw) = Some o1
     ∧ (o1 = node nw ∨ ¬ live w o1)
     ∧ deref (objects w') o1 = patched nodeId' (deref (objects w) (node nw))) →
  deref (objects w') (node nw) = patched nodeId' (deref (objects w) (node nw)) →
  same_reading w w'.
Proof.
  intros [Hn Hrb]%elem_of_existing_nodes [Hsz Hpos Hobj Hlive]
    (o1 & Hat & _ & Ho1) Hnode.
  split; [done|]. intros p. unfold read_at.
  destruct (decide (p = pos nw)) as [->|Hp].
  - rewrite Hn, Hat. simpl. constructor. rewrite Ho1.
    split; [done|]. split; [done|]. intros Hne. by destruct Hne.
  - rewrite (Hpos p Hp).
    destruct (nodeAt (doc w) p) as [o|] eqn:Hq; simpl; constructor.
    destruct (decide (o = node nw)) as [->|Hon].
    + rewrite Hnode. split; [done|]. split; [done|].
      intros Hne. by destruct Hne.
    + unfold deref. rewrite (Hobj o Hon) by (by eapply nodeAt_live). done.
Qed.

(** The entries still to come are where they were after a callback on
    another position. *)
Lemma step_keeps_entry (nw nw' : NodeWithPos) w w' (nodeId' : UUID) :
  nw ∈ _getExistingEditorNodes w →
  editor_frame nw w w' →
  deref (objects w') (node nw) = patched nodeId' (deref (objects w) (node nw)) →
  nw' ∈ _getExistingEditorNodes w →
  pos nw' ≠ pos nw →
  nw' ∈ _getExistingEditorNodes w'.
Proof.
  intros [Hn Hrb]%elem_of_existing_nodes [Hsz Hpos Hobj Hlive] Hnode
    [Hn' Hrb']%elem_of_existing_nodes Hp.
  apply elem_of_existing_nodes. split; [by rewrite Hpos|].
  unfold is_relation_block in *.
  destruct (decide (node nw' = node nw)) as [Heq|Hon].
  - rewrite Heq, Hnode. done.
  - unfold deref. rewrite (Hobj _ Hon) by (by eapply nodeAt_live). done.
Qed.

Lemma relation_block_not_text w nw :
  is_relation_block w nw → type_name (deref (objects w) (node nw)) ≠ "text".
Proof. unfold is_relation_block. by intros ->. Qed.

(** The loop over entries of the snapshot completes, changes the reading
    of the document in identities only, and leaves alone the positions
    and the objects that are not those of the entries. *)
Lemma forEach_node_editor editorField (nodes : list NodeWithPos) :
  ∀ w memory,
    NoDup (pos <$> nodes) →
    (∀ nw, nw ∈ nodes → nw ∈ _getExistingEditorNodes w) →
    ∃ w' memory',
      forEach_node editorField nodes w memory = Done (w', memory')
      ∧ same_reading w w'
      ∧ (∀ q, q ∉ pos <$> nodes → nodeAt (doc w') q = nodeAt (doc w) q)
      ∧ (∀ o : nat, o ∉ node <$> nodes → live w o →
           objects w' !! o = objects w !! o)
      ∧ (∀ o : nat, live w o → live w' o).
Proof.
  induction nodes as [|nw rest IH]; intros w memory Hnd Hheld.
  - exists w, memory. simpl. split; [done|]. split; [apply same_reading_refl|].
    done.
  - simpl. apply NoDup_cons in Hnd as [Hhead Hnd].
    assert (nw ∈ _getExistingEditorNodes w) as Hnw by (apply Hheld; by left).
    pose proof Hnw as [Hn Hrb]%elem_of_existing_nodes.
    destruct (syncInsertedNode_step editorField nw w memory Hn
                (relation_block_not_text _ _ Hrb))
      as (w1 & m1 & id' & -> & _ & Hed).
    destruct (step_editor nw w w1 id' Hn Hed) as (Hframe & Hat & Hnode).
    destruct (IH w1 m1 Hnd) as (w2 & m2 & -> & Hread & Hpos & Hobj & Hlive).
    { intros nw' Hin.
      eapply step_keeps_entry; [done..| |].
      - apply Hheld. by right.
      - intros Heq. apply Hhead. rewrite <- Heq. by apply list_elem_of_fmap_2. }
    exists w2, m2. split; [done|]. split; [|split; [|split]].
    + eapply same_reading_trans; [|done]. by eapply step_same_reading.
    + intros q Hq. rewrite Hpos.
      * apply Hframe. intros ->. apply Hq. by left.
      * intros Hin. apply Hq. by right.
    + intros o Ho Hl. rewrite Hobj.
      * apply Hframe; [|done]. intros ->. apply Ho. by left.
      * intros Hin. apply Ho. by right.
      * by apply Hframe.
    + intros o Hl. by apply Hlive, Hframe.
Qed.

(** The loop over entries that are distinct node objects, each with an
    item in the store: it keeps the invariant; the memory holds the
    identities the document shows at the positions of the entries; and
    each entry is either given an identity the store did not have or
    left where and as it was. *)
Lemma forEach_node_identities editorField s0 (nodes : list NodeWithPos) :
  ∀ w memory seen,
    loop_inv editorField s0 seen (m2aStore w) (nodeIds memory) →
    NoDup (pos <$> nodes) →
    NoDup (node <$> nodes) →
    (∀ nw, nw ∈ nodes →
       nw ∈ _getExistingEditorNodes w ∧ is_Some (s0 !! node_id w nw)) →
    ∃ w' memory',
      forEach_node editorField nodes w memory = Done (w', memory')
      ∧ loop_inv editorField s0 (seen ++ (node_id w <$> nodes))
                 (m2aStore w') (nodeIds memory')
      ∧ nodeIds memory' = nodeIds memory ++ ((λ nw, id_at w' (pos nw)) <$> nodes)
      ∧ ∀ (i : nat) nw it0,
          nodes !! i = Some nw → s0 !! node_id w nw = Some it0 →
          if reidentified editorField
               (seen ++ (node_id w <$> take i nodes)) (node_id w nw) it0
          then s0 !! id_at w' (pos nw) = None
          else nodeAt (doc w') (pos nw) = Some (node nw)
               ∧ objects w' !! node nw = objects w !! node nw.
Proof.
  induction nodes as [|nw rest IH]; intros w memory seen Hinv Hndp Hndo Hheld.
  - exists w, memory. simpl. rewrite !app_nil_r. done.
  - simpl. apply NoDup_cons in Hndp as [Hheadp Hndp].
    apply NoDup_cons in Hndo as [Hheado Hndo].
    destruct (Hheld nw ltac:(by left)) as [Hnw Hpres0].
    pose proof Hnw as [Hn Hrb]%elem_of_existing_nodes.
    destruct (syncInsertedNode_step editorField nw w memory Hn
                (relation_block_not_text _ _ Hrb))
      as (w1 & m1 & id' & -> & Hstep & Hed).
    destruct (step_editor nw w w1 id' Hn Hed)
      as (Hframe & (o1 & Hat & Ho1 & Hread1) & Hnode).
    pose proof (loop_inv_step _ _ _ _ _ _ _ _ _ Hinv Hstep) as Hinv1.
    assert (Hpresent : is_Some (m2aStore w !! node_id w nw))
      by (eapply inv_grow; eauto).
    assert (Hm1 : nodeIds m1 = nodeIds memory ++ [id']).
    { destruct (node_step_memory _ _ _ _ _ _ _ Hstep)
        as [(Hk & _)|(_ & _ & ->)]; [|done].
      rewrite Hk in Hpresent. by destruct Hpresent. }
    assert (Hother : ∀ nw', nw' ∈ rest →
              pos nw' ≠ pos nw ∧ node nw' ≠ node nw ∧ node nw' ≠ o1
              ∧ nw' ∈ _getExistingEditorNodes w).
    { intros nw' Hin.
      destruct (Hheld nw' ltac:(by right)) as [Hnw' _].
      split; [|split; [|split; [|done]]].
      - intros Heq. apply Hheadp. rewrite <- Heq. by apply list_elem_of_fmap_2.
      - intros Heq. apply Hheado. rewrite <- Heq. by apply list_elem_of_fmap_2.
      - intros Heq. destruct Ho1 as [->|Hfresh].
        + apply Hheado. rewrite <- Heq. by apply list_elem_of_fmap_2.
        + apply Hfresh. rewrite <- Heq.
          apply elem_of_existing_nodes in Hnw' as [Hn' _].
          by eapply nodeAt_live. }
    assert (Hsame : ∀ nw', nw' ∈ rest →
              objects w1 !! node nw' = objects w !! node nw').
    { intros nw' Hin. destruct (Hother nw' Hin) as (_ & Hon & _ & Hnw').
      apply Hframe; [done|].
      apply elem_of_existing_nodes in Hnw' as [Hn' _]. by eapply nodeAt_live. }
    assert (Hids : ∀ nw', nw' ∈ rest → node_id w1 nw' = node_id w nw').
    { intros nw' Hin. unfold node_id, deref. by rewrite Hsame. }
    assert (Hidl : ∀ l : list NodeWithPos, l ⊆ rest →
              node_id w1 <$> l = node_id w <$> l).
    { intros l Hl. apply Forall_fmap_ext_1, Forall_forall.
      intros nw' Hin. apply Hids, Hl, Hin. }
    destruct (IH w1 m1 (seen ++ [node_id w nw]) Hinv1 Hndp Hndo)
      as (w2 & m2 & Hrun & Hinv2 & Hm2 & Hper).
    { intros nw' Hin. destruct (Hother nw' Hin) as (Hp & _ & _ & Hnw').
      split; [exact (step_keeps_entry nw nw' w w1 id' Hnw Hframe Hnode Hnw' Hp)|].
      rewrite Hids by done. apply Hheld. by right. }
    destruct (forEach_node_editor editorField rest w1 m1 Hndp)
      as (w2' & m2' & Hrun' & _ & Hpos & Hobj & _).
    { intros nw' Hin. destruct (Hother nw' Hin) as (Hp & _ & _ & Hnw').
      exact (step_keeps_entry nw nw' w w1 id' Hnw Hframe Hnode Hnw' Hp). }
    rewrite Hrun in Hrun'. simplify_eq. rewrite Hrun.
    assert (Hat2 : nodeAt (doc w2') (pos nw) = Some o1).
    { rewrite Hpos; [done|].
      intros (nw' & Heq & Hin)%list_elem_of_fmap.
      by destruct (Hother nw' Hin) as (Hp & _). }
    assert (Ho2 : objects w2' !! o1 = objects w1 !! o1).
    { apply Hobj; [|by eapply nodeAt_live].
      intros (nw' & Heq & Hin)%list_elem_of_fmap.
      by destruct (Hother nw' Hin) as (_ & _ & Hne & _). }
    assert (Hid2 : id_at w2' (pos nw) = id').
    { unfold id_at, read_at. rewrite Hat2. simpl.
      unfold deref in *. rewrite Ho2, Hread1. done. }
    exists w2', m2'. split; [done|].
    rewrite Hidl in Hinv2 by done. rewrite <- app_assoc in Hinv2.
    split; [done|]. split.
    { rewrite Hm2, Hm1, <- app_assoc. simpl. by rewrite Hid2. }
    intros [|i] nw0 it0 Hi Hs0; simpl in Hi.
    + assert (nw0 = nw) as -> by congruence. simpl. rewrite app_nil_r.
      pose proof (node_step_identity _ _ _ _ _ _ _ _ _ _ Hinv Hstep Hs0) as Hid.
      destruct (reidentified _ _ _ _); [by rewrite Hid2|].
      destruct Hed as [(_ & Hd & Ho)|(Hk & _)].
      * assert (o1 = node nw) as -> by (rewrite Hd, Hn in Hat; congruence).
        split; [done|]. by rewrite Ho2, Ho.
      * rewrite Hid in Hk. rewrite Hk in Hpresent. by destruct Hpresent.
    + assert (nw0 ∈ rest) as Hin by (by eapply list_elem_of_lookup_2).
      specialize (Hper i nw0 it0 Hi).
      rewrite Hids in Hper by done. specialize (Hper Hs0).
      rewrite Hidl in Hper by apply subseteq_take.
      simpl. rewrite <- app_assoc in Hper. simpl in Hper.
      destruct (reidentified _ _ _ _); [done|].
      destruct Hper as [? Hsame2]. split; [done|].
      by rewrite Hsame2, Hsame.
Qed.
End loop.

(** ** The whole pass *)

Lemma deactivated_present existing editorField s x :
  (deactivateUnusedItems existing editorField s).2 !! x = None
  ↔ s !! x = None.
Proof.
  rewrite deactivateUnusedItems_lookup. by destruct (s !! x).
Qed.

Lemma deactivated_in_document existing editorField s x :
  x ∈ existing →
  (deactivateUnusedItems existing editorField s).2 !! x = s !! x.
Proof.
  intros Hx. rewrite deactivateUnusedItems_lookup.
  destruct (s !! x) as [it|]; [|done]. simpl. f_equal.
  unfold unused. rewrite (bool_decide_false (x ∉ existing)) by tauto.
  by rewrite andb_false_r.
Qed.

Lemma deactivated_owned existing editorField s x it :
  (deactivateUnusedItems existing editorField s).2 !! x = Some it →
  active it = true → field it = editorField → x ∈ existing.
Proof.
  rewrite deactivateUnusedItems_lookup.
  destruct (s !! x) as [it0|]; [|done]. simpl. intros [= <-].
  destruct (unused existing editorField x it0) eqn:Hu; [done|].
  intros Ha Hf. unfold unused in Hu. rewrite Ha in Hu. simpl in Hu.
  rewrite (bool_decide_true _ Hf) in Hu. simpl in Hu.
  apply bool_decide_eq_false in Hu.
  destruct (decide (x ∈ existing)); tauto.
Qed.


Lemma same_reading_positions {R} (w w' : World R) :
  same_reading w w' →
  pos <$> filter (is_relation_block w') (descendants (doc w'))
  = pos <$> filter (is_relation_block w) (descendants (doc w)).
Proof.
  intros [Hsz Hrd]. unfold descendants. rewrite Hsz.
  induction (seq 0 (content_size (doc w))) as [|p l IH]; [done|].
  cbn [omap list_omap]. specialize (Hrd p). unfold read_at in Hrd.
  destruct (nodeAt (doc w) p) as [o|], (nodeAt (doc w') p) as [o'|];
    simpl in Hrd; inversion Hrd as [? ? (Ht & _)|]; subst; [|done].
  cbn [fmap option_fmap option_map].
  destruct (decide (type_name (deref (objects w) o) = "relation-block"))
    as [Hrb|Hrb].
  - rewrite !filter_cons_True; [|done|unfold is_relation_block; simpl; congruence].
    rewrite !fmap_cons, IH. done.
  - rewrite !filter_cons_False; [done|done|].
    unfold is_relation_block. simpl. congruence.
Qed.

Lemma same_reading_shown {R} (w w' : World R) :
  same_reading w w' → same_but_ids (shown w) (shown w').
Proof.
  intros [Hsz Hrd].
  assert (Hall : Forall2
            (λ n n', type_name n' = type_name n
                     ∧ attrs_rest (attrs n') = attrs_rest (attrs n)
                     ∧ (type_name n ≠ "relation-block" → n' = n))
            (shown w) (shown w')).
  { unfold shown, descendants. rewrite Hsz.
    induction (seq 0 (content_size (doc w))) as [|p l IH]; [constructor|].
    cbn [omap list_omap]. specialize (Hrd p). unfold read_at in Hrd.
    destruct (nodeAt (doc w) p) as [o|], (nodeAt (doc w') p) as [o'|];
      simpl in Hrd; inversion Hrd as [? ? Hrel|]; subst; [|done].
    cbn [fmap option_fmap option_map]. rewrite !fmap_cons.
    by constructor. }
  split; [symmetry; by eapply Forall2_length|].
  intros p n n' Hp Hp'. by eapply (Forall2_lookup_lr _ _ _ _ _ _ Hall).
Qed.

Section whole_pass.
Context {R : Type} `{!RelationReference R} `{!UuidSource}.
Implicit Types (w : World R) (s : M2AStore).

Lemma syncRemovedNodes_store editorField (nodes : list NodeWithPos) w :
  m2aStore (syncRemovedNodes editorField nodes w)
  = (deactivateUnusedItems (node_id w <$> nodes) editorField (m2aStore w)).2
  ∧ doc (syncRemovedNodes editorField nodes w) = doc w
  ∧ objects (syncRemovedNodes editorField nodes w) = objects w.
Proof.
  unfold syncRemovedNodes, store_deactivateUnusedItems.
  destruct (deactivateUnusedItems _ _ _) as [ids s]. cbn [snd].
  destruct (_removeRelatedItems_calls ids
              (with_store s (Deactivated <$> ids) w))
    as (calls & _ & _ & Hs & Hd & Ho).
  by rewrite Hs, Hd, Ho.
Qed.

Lemma existing_nodes_same_editor w w' :
  doc w' = doc w → objects w' = objects w →
  _getExistingEditorNodes w' = _getExistingEditorNodes w
  ∧ node_id w' = node_id w.
Proof.
  intros Hd Ho. destruct w, w'. simpl in *. by subst.
Qed.

Lemma node_id_in_document w nw :
  nw ∈ _getExistingEditorNodes w → node_id w nw = id_at w (pos nw).
Proof.
  intros [Hn _]%elem_of_existing_nodes. unfold id_at, read_at, node_id.
  by rewrite Hn.
Qed.


(** On a document that mirrors the store the loop changes nothing. *)
Lemma forEach_node_settled editorField (nodes : list NodeWithPos) :
  ∀ w memory,
    (∀ nw, nw ∈ nodes →
       ∃ it, m2aStore w !! node_id w nw = Some it ∧ active it = true
             ∧ field it = editorField) →
    NoDup (nodeIds memory ++ (node_id w <$> nodes)) →
    ∃ memory', forEach_node editorField nodes w memory = Done (w, memory').
Proof.
  induction nodes as [|nw rest IH]; intros w memory Hall Hnd.
  - simpl. eauto.
  - simpl. destruct (Hall nw ltac:(by left)) as (it & Hk & Ha & Hf).
    rewrite fmap_cons in Hnd.
    assert (node_id w nw ∉ nodeIds memory) as Hnin.
    { apply NoDup_app in Hnd as (_ & Hd & _). intros Hin.
      apply (Hd _ Hin). by left. }
    rewrite (syncInsertedNode_unchanged _ _ _ _ _ Hk Ha Hnin Hf).
    destruct (IH w {| nodeIds := nodeIds memory ++ [node_id w nw] |})
      as (m' & ->); [| |eauto].
    + intros ? ?. apply Hall. by right.
    + simpl. by rewrite <- app_assoc.
Qed.

(** The insertion loop of a pass over distinct node objects, each with
    an item in the store. *)
Lemma insertion_loop_summary editorField w :
  Forall (λ nw, is_Some (m2aStore w !! node_id w nw))
         (_getExistingEditorNodes w) →
  NoDup (node <$> _getExistingEditorNodes w) →
  let nodes := _getExistingEditorNodes w in
  let w0 := syncRemovedNodes editorField nodes w in
  ∃ w1 m1,
    forEach_node editorField nodes w0 _nodeIdMemory = Done (w1, m1)
    ∧ loop_inv editorField (m2aStore w0) (node_id w <$> nodes)
               (m2aStore w1) (nodeIds m1)
    ∧ pos <$> _getExistingEditorNodes w1 = pos <$> nodes
    ∧ node_id w1 <$> _getExistingEditorNodes w1 = nodeIds m1
    ∧ ∀ (i : nat) nw it0,
        nodes !! i = Some nw → m2aStore w !! node_id w nw = Some it0 →
        if reidentified editorField (node_id w <$> take i nodes)
                        (node_id w nw) it0
        then m2aStore w !! id_at w1 (pos nw) = None
        else nodeAt (doc w1) (pos nw) = Some (node nw)
             ∧ objects w1 !! node nw = objects w !! node nw.
Proof.
  intros Hall Hndo nodes w0. subst nodes.
  set (nodes := _getExistingEditorNodes w) in *.
  destruct (syncRemovedNodes_store editorField nodes w) as (Hs0 & Hd0 & Ho0).
  fold w0 in Hs0, Hd0, Ho0.
  destruct (existing_nodes_same_editor w w0 Hd0 Ho0) as [Hnodes0 Hid0].
  fold nodes in Hnodes0.
  assert (Hpres0 : ∀ nw, nw ∈ nodes →
            m2aStore w0 !! node_id w nw = m2aStore w !! node_id w nw).
  { intros nw Hin. rewrite Hs0. apply deactivated_in_document.
    by apply list_elem_of_fmap_2. }
  pose proof (existing_nodes_pos_NoDup w) as Hndp. fold nodes in Hndp.
  assert (Hheld : ∀ nw, nw ∈ nodes →
            nw ∈ _getExistingEditorNodes w0
            ∧ is_Some (m2aStore w0 !! node_id w0 nw)).
  { intros nw Hin. rewrite Hnodes0, Hid0. split; [done|].
    rewrite Hpres0 by done. rewrite Forall_forall in Hall. by apply Hall. }
  destruct (forEach_node_identities editorField (m2aStore w0) nodes w0
              _nodeIdMemory [] (loop_inv_start _ _) Hndp Hndo Hheld)
    as (w1 & m1 & Hrun & Hinv & Hmem & Hper).
  destruct (forEach_node_editor editorField nodes w0 _nodeIdMemory Hndp)
    as (w1' & m1' & Hrun' & Hread & _).
  { intros nw Hin. by apply Hheld. }
  rewrite Hrun in Hrun'.
  assert (w1 = w1' ∧ m1 = m1') as [-> ->] by (split; congruence).
  clear Hrun'.
  exists w1', m1'. split; [done|].
  simpl in Hinv, Hmem. rewrite Hid0 in Hinv. split; [done|].
  assert (Hposl : pos <$> _getExistingEditorNodes w1' = pos <$> nodes).
  { rewrite <- Hnodes0. by apply same_reading_positions. }
  split; [done|]. split.
  { rewrite Hmem.
    transitivity (id_at w1' <$> (pos <$> _getExistingEditorNodes w1')).
    - rewrite <- list_fmap_compose. apply Forall_fmap_ext_1, Forall_forall.
      intros nw' Hin. by apply node_id_in_document.
    - rewrite Hposl. by rewrite <- list_fmap_compose. }
  intros i nw it0 Hi Hk.
  assert (nw ∈ nodes) as Hin by (by eapply list_elem_of_lookup_2).
  assert (Hk0 : m2aStore w0 !! node_id w0 nw = Some it0).
  { rewrite Hid0, Hpres0 by done. done. }
  specialize (Hper i nw it0 Hi Hk0). simpl in Hper. rewrite Hid0 in Hper.
  destruct (reidentified _ _ _ _).
  - rewrite Hs0 in Hper. by apply deactivated_present in Hper.
  - by rewrite Ho0 in Hper.
Qed.

(** C2 (amended: the first occurrence keeps its identity unless its item
    is active under another field; and no node object occurs at two
    positions of the document).  When every node identity has an item in
    the store and the reference nodes of the document are distinct node
    objects, the pass completes, and afterwards no two reference nodes
    share an identity.  The reference nodes are at the positions they
    had.  A node that repeats the identity of an earlier node shows an
    identity the store did not have before the pass, and so does a first
    occurrence whose item is active and owned by a different editor
    field; any other first occurrence reads as it did. *)
Theorem identities_unique_after_pass editorField w :
  Forall (λ nw, is_Some (m2aStore w !! node_id w nw))
         (_getExistingEditorNodes w) →
  NoDup (node <$> _getExistingEditorNodes w) →
  ∃ w', syncRelationNodes editorField w = Done w'
    ∧ let before := _getExistingEditorNodes w in
      let after := _getExistingEditorNodes w' in
      NoDup (node_id w' <$> after)
      ∧ length after = length before
      ∧ ∀ (i : nat) nw nw',
          before !! i = Some nw → after !! i = Some nw' →
          pos nw' = pos nw
          ∧ if bool_decide (node_id w nw ∈ node_id w <$> take i before)
               || (itemIsActive (m2aStore w) (node_id w nw)
                   && itemFromDifferentEditor (m2aStore w) (node_id w nw)
                                              editorField)
            then m2aStore w !! node_id w' nw' = None
            else deref (objects w') (node nw') = deref (objects w) (node nw).
Proof.
  intros Hall Hndo.
  destruct (insertion_loop_summary editorField w Hall Hndo)
    as (w1 & m1 & Hrun & Hinv & Hposl & Hidl & Hper).
  unfold syncRelationNodes, syncInsertedNodes. rewrite Hrun.
  exists w1. split; [done|]. cbv zeta.
  set (nodes := _getExistingEditorNodes w) in *.
  assert (Hlen : length (_getExistingEditorNodes w1) = length nodes).
  { apply (f_equal length) in Hposl. by rewrite !length_fmap in Hposl. }
  split; [|split; [done|]].
  - rewrite Hidl. apply Hinv.
  - intros i nw nw' Hi Hi'.
    assert (Hpos : pos nw' = pos nw).
    { apply (f_equal (λ l, l !! i)) in Hposl.
      rewrite !list_lookup_fmap, Hi, Hi' in Hposl. simpl in Hposl. congruence. }
    split; [done|].
    assert (nw ∈ nodes) as Hin by (by eapply list_elem_of_lookup_2).
    assert (nw' ∈ _getExistingEditorNodes w1) as Hin'
      by (by eapply list_elem_of_lookup_2).
    rewrite Forall_forall in Hall. destruct (Hall nw Hin) as [it0 Hk].
    specialize (Hper i nw it0 Hi Hk).
    unfold itemIsActive, itemFromDifferentEditor. rewrite Hk. simpl.
    unfold reidentified in Hper.
    destruct (_ || _).
    + by rewrite (node_id_in_document _ _ Hin'), Hpos.
    + destruct Hper as [Hat Hobj].
      apply elem_of_existing_nodes in Hin' as [Hat' _].
      rewrite Hpos, Hat in Hat'. unfold deref.
      assert (node nw' = node nw) as -> by congruence. by rewrite Hobj.
Qed.

(** X16.  On a document whose reference nodes are distinct node objects,
    each with an item in the store, a second pass right after a pass
    returns the very world it started from: it mutates nothing in the
    store, dispatches nothing and calls nothing on the relation
    collection. *)
Theorem second_pass_is_noop_without_sharing editorField w :
  Forall (λ nw, is_Some (m2aStore w !! node_id w nw))
         (_getExistingEditorNodes w) →
  NoDup (node <$> _getExistingEditorNodes w) →
  ∃ w1, syncRelationNodes editorField w = Done w1
        ∧ syncRelationNodes editorField w1 = Done w1.
Proof.
  intros Hall Hndo.
  destruct (insertion_loop_summary editorField w Hall Hndo)
    as (w1 & m1 & Hrun & Hinv & Hposl & Hidl & _).
  unfold syncRelationNodes at 1. unfold syncInsertedNodes. rewrite Hrun.
  exists w1. split; [done|].
  set (nodes := _getExistingEditorNodes w) in *.
  destruct (syncRemovedNodes_store editorField nodes w) as (Hs0 & _).
  destruct Hinv as [Hgrow Hunt Hseen Hmemory Horig Hnd Hown].
  unfold syncRelationNodes, syncInsertedNodes.
  rewrite syncRemovedNodes_nothing_unused.
  - destruct (forEach_node_settled editorField (_getExistingEditorNodes w1)
                w1 _nodeIdMemory) as (m' & ->); [| |done].
    + intros nw Hin. apply Hmemory. rewrite <- Hidl.
      by apply list_elem_of_fmap_2.
    + simpl. by rewrite Hidl.
  - intros x it Hk Ha Hf. rewrite Hidl.
    destruct (Hown x it Hk Ha Hf) as [Hin|[Hns Hk0]]; [done|].
    destruct Hns. rewrite Hs0 in Hk0.
    by apply (deactivated_owned _ _ _ _ _ Hk0).
Qed.

(** The pass completes and changes the reading of the document in
    identities only. *)
Lemma syncRelationNodes_reading editorField w :
  ∃ w', syncRelationNodes editorField w = Done w' ∧ same_reading w w'.
Proof.
  unfold syncRelationNodes, syncInsertedNodes.
  set (nodes := _getExistingEditorNodes w).
  set (w0 := syncRemovedNodes editorField nodes w).
  destruct (syncRemovedNodes_store editorField nodes w) as (Hs0 & Hd0 & Ho0).
  fold w0 in Hs0, Hd0, Ho0.
  destruct (existing_nodes_same_editor w w0 Hd0 Ho0) as [Hnodes0 Hid0].
  destruct (forEach_node_editor editorField nodes w0 _nodeIdMemory
              (existing_nodes_pos_NoDup w))
    as (w1 & m1 & -> & Hread & _).
  { intros nw Hin. by rewrite Hnodes0. }
  exists w1. split; [done|].
  destruct Hread as [Hsz Hrd]. split; [by rewrite Hsz, Hd0|].
  intros p. specialize (Hrd p). unfold read_at in *.
  by rewrite Hd0, Ho0 in Hrd.
Qed.
End whole_pass.

(** ** The cases of the callback, as claimed *)

Section claims.
Context {R : Type} `{!RelationReference R} `{!UuidSource}.
Implicit Types (w : World R) (it : M2AStoreItem).

Lemma collection_calls_activate (nodeId : UUID) editorField it tail :
  collection_calls (ActivateItem nodeId
                    :: claim_events nodeId editorField it ++ tail)
  = collection_calls tail.
Proof. unfold claim_events. by case_bool_decide. Qed.

(** C3 (duplicate case).  For a reference node of the document whose
    item is active and which repeats an identity already in the memory or
    belongs to another field: [duplicateItem] yields an identity the
    store did not have, with an item holding the original's data; a
    silent transaction puts a new node object at the node's position, of
    the same type and with the same attributes but the new identity; the
    node object of the snapshot is overwritten in place with the same
    attributes, so every other position that holds it reads the new
    identity too, while the remaining positions read as they did and no
    other object that existed changes; the memory entry just recorded is
    replaced by the new identity; and the only call on the relation
    collection is a [create] with the duplicate's data. *)
Theorem duplicate_is_forked editorField (nw : NodeWithPos) w memory it :
  nw ∈ _getExistingEditorNodes w →
  m2aStore w !! node_id w nw = Some it →
  active it = true →
  node_id w nw ∈ nodeIds memory ∨ field it ≠ editorField →
  let newId := new_uuid (m2aStore w) in
  let before := deref (objects w) (node nw) in
  ∃ w' dup (o' : nat) evs,
    syncInsertedNode editorField nw w memory
    = Done (w', replaceLastItem newId
                  (nodeIdUniqueInEditor (node_id w nw) memory).2)
    ∧ nodeIds (replaceLastItem newId
                 (nodeIdUniqueInEditor (node_id w nw) memory).2)
      = nodeIds memory ++ [newId]
    ∧ m2aStore w !! newId = None
    ∧ m2aStore w' !! newId = Some dup ∧ item dup = item it
    ∧ content_size (doc w') = content_size (doc w)
    ∧ nodeAt (doc w') (pos nw) = Some o'
    ∧ ¬ live w o'
    ∧ deref (objects w') o' = patched newId before
    ∧ deref (objects w') (node nw) = patched newId before
    ∧ (∀ q, q ≠ pos nw →
         read_at w' q = if decide (nodeAt (doc w) q = Some (node nw))
                        then Some (patched newId before) else read_at w q)
    ∧ (∀ o : nat, live w o → o ≠ node nw → objects w' !! o = objects w !! o)
    ∧ log w' = log w ++ evs
    ∧ DuplicateItem (node_id w nw) newId ∈ evs
    ∧ Dispatch (silent_patch newId before (pos nw)) ∈ evs
    ∧ collection_calls evs = [Create (item dup)].
Proof.
  intros [Hn Hrb]%elem_of_existing_nodes Hk Ha Hdup newId before.
  rewrite (syncInsertedNode_duplicate_held _ _ _ _ _ Hn
             (relation_block_not_text _ _ Hrb) Hk Ha Hdup).
  rewrite replaceLastItem_after_record. fold newId.
  unfold claim_events.
  destruct (bool_decide (field it ≠ editorField)) eqn:Hb;
    [rewrite setField_insert|];
    (set (w' := {| m2aStore := _; m2aRelation := _; doc := _; objects := _;
                   log := _ |});
     destruct (refreshed_frame newId nw w w' Hn eq_refl eq_refl)
       as (Hframe & Hat & Hnew & Hnode);
     eexists w', _, (new_object (objects w) (doc w)), _;
     split; [reflexivity|]; split; [done|];
     split; [apply new_uuid_fresh|];
     split; [apply lookup_insert_eq|];
     split; [done|]; split; [apply Hframe|]; split; [done|];
     split; [apply new_object_not_live|];
     split; [done|]; split; [done|];
     split; [by apply frame_reading|];
     split; [intros o Hl Hon; by apply Hframe|];
     split; [reflexivity|];
     split; [by left|]; split; [right; by left|]; done).
Qed.

(** C9 (ownership goes to the duplicate).  For a reference node of the
    document whose item is active and owned by a different field, the
    store is mutated by [duplicateItem] and by [setField] on the new
    identity only, which differs from the node's original identity; the
    duplicate ends up owned by this field, and the original item is
    exactly as it was. *)
Theorem setField_targets_duplicate editorField (nw : NodeWithPos) w memory it :
  nw ∈ _getExistingEditorNodes w →
  m2aStore w !! node_id w nw = Some it →
  active it = true →
  field it ≠ editorField →
  let newId := new_uuid (m2aStore w) in
  ∃ w' memory' dup evs,
    syncInsertedNode editorField nw w memory = Done (w', memory')
    ∧ log w' = log w ++ evs
    ∧ newId ≠ node_id w nw
    ∧ filter (λ e, is_store_mutation e = true) evs
      = [DuplicateItem (node_id w nw) newId; SetField newId editorField]
    ∧ m2aStore w' !! node_id w nw = Some it
    ∧ m2aStore w' !! newId = Some dup ∧ field dup = editorField.
Proof.
  intros [Hn Hrb]%elem_of_existing_nodes Hk Ha Hf newId.
  assert (newId ≠ node_id w nw) as Hne.
  { intros Heq. pose proof (new_uuid_fresh (m2aStore w)) as Hfr.
    fold newId in Hfr. rewrite Heq, Hk in Hfr. done. }
  rewrite (syncInsertedNode_duplicate_held _ _ _ _ _ Hn
             (relation_block_not_text _ _ Hrb) Hk Ha (or_intror Hf)).
  fold newId. rewrite (bool_decide_true _ Hf). unfold claim_events.
  rewrite (bool_decide_true _ Hf).
  eexists _, _, _, _. split; [reflexivity|]. simpl.
  split; [reflexivity|]. split; [done|]. split; [done|].
  rewrite setField_insert. split.
  - rewrite lookup_insert_ne by done. done.
  - by rewrite lookup_insert_eq.
Qed.

(** C4 (reactivation merge).  For a node whose item is not new, is
    inactive and has the pending edits [{a: 1}], when the display item
    reports [$type = "X"] and [$index = 2] (and no [$edits]): the calls on
    the relation collection are [remove] on the display item and then one
    [update], and no [create]; the edits sent are
    [{a: 1, $type: "X", $index: 2}] with [$edits] bound to [undefined],
    which is [{a: 1, $type: "X", $index: 2}] for every property read; the
    callback ends there, leaving the document and its node objects as
    they were. *)
Theorem reactivation_merges_display_fields editorField (nw : NodeWithPos)
    w memory it (displayItem shown : Item) :
  m2aStore w !! node_id w nw = Some it →
  active it = false →
  isNew it = false →
  edits it = Some {["a" := JNum 1]} →
  findDisplayItem (m2aRelation w) (node_id w nw) = Some displayItem →
  findDisplayItem (remove (Some displayItem) (m2aRelation w)) (node_id w nw)
  = Some shown →
  prop shown "$type" = JStr "X" →
  prop shown "$index" = JNum 2 →
  prop shown "$edits" = JUndefined →
  ∃ w' memory' e evs,
    syncInsertedNode editorField nw w memory = Done (w', memory')
    ∧ doc w' = doc w ∧ objects w' = objects w
    ∧ log w' = log w ++ evs
    ∧ collection_calls evs = [Remove (Some displayItem); Update e]
    ∧ e = <["$edits" := JUndefined]>
            (<["$index" := JNum 2]>
               (<["$type" := JStr "X"]> {["a" := JNum 1]}))
    ∧ same_props e
        (<["$index" := JNum 2]> (<["$type" := JStr "X"]> {["a" := JNum 1]})).
Proof.
  intros Hk Ha Hn He Hd Hs Ht Hi Hu.
  rewrite (syncInsertedNode_activate _ _ _ _ _ Hk Ha).
  rewrite Hn, He, Hd, Hs. unfold merged_edits. rewrite Ht, Hi, Hu.
  eexists _, _, _, _. split; [reflexivity|]. simpl.
  split; [done|]. split; [done|].
  split; [reflexivity|]. split.
  { by rewrite collection_calls_activate. }
  split; [done|].
  intros k. unfold prop.
  destruct (decide (k = "$edits")) as [->|Hne].
  - rewrite lookup_insert_eq. simpl.
    rewrite !lookup_insert_ne by done. by rewrite lookup_singleton_ne.
  - by rewrite lookup_insert_ne.
Qed.

(** C10 (reactivation without a display item).  For a node whose item is
    not new, is inactive and has pending edits, when the lookup of the
    merge step finds no display item: the pending edits stay in the store
    as they were, and the relation collection still gets an [update] with
    exactly those edits, after the [remove]; the document and its node
    objects are as they were. *)
Theorem reactivation_without_display_item editorField (nw : NodeWithPos)
    w memory it (pending : Item) :
  m2aStore w !! node_id w nw = Some it →
  active it = false →
  isNew it = false →
  edits it = Some pending →
  let relatedItem := findDisplayItem (m2aRelation w) (node_id w nw) in
  findDisplayItem (remove relatedItem (m2aRelation w)) (node_id w nw) = None →
  ∃ w' memory' it' evs,
    syncInsertedNode editorField nw w memory = Done (w', memory')
    ∧ doc w' = doc w ∧ objects w' = objects w
    ∧ log w' = log w ++ evs
    ∧ collection_calls evs = [Remove relatedItem; Update pending]
    ∧ m2aStore w' !! node_id w nw = Some it'
    ∧ edits it' = Some pending.
Proof.
  intros Hk Ha Hn He relatedItem Hs.
  rewrite (syncInsertedNode_activate _ _ _ _ _ Hk Ha).
  rewrite Hn, He. fold relatedItem. rewrite Hs.
  eexists _, _, _, _. split; [reflexivity|]. simpl.
  split; [done|]. split; [done|].
  split; [reflexivity|]. split.
  { by rewrite collection_calls_activate. }
  split; [apply lookup_insert_eq|]. done.
Qed.
End claims.

(** * Further properties of the code *)

(** ** More on the identity memory *)


(** X1.  [replaceLastItem] drops the last recorded identity, if there is
    one, and appends the given identity; on an empty memory it just adds
    the identity. *)
Theorem replaceLastItem_drops_last (nodeId : UUID) (this : NodeIdMemory) :
  nodeIds (replaceLastItem nodeId this)
  = take (length (nodeIds this) - 1) (nodeIds this) ++ [nodeId].
Proof.
  destruct this as [l]. simpl. destruct l as [|y l] using rev_ind.
  - reflexivity.
  - unfold replaceLastItem. simpl. rewrite splice_last.
    rewrite length_app. simpl.
    replace (length l + 1 - 1)%nat with (length l) by lia.
    by rewrite take_app_length.
Qed.

Lemma record_keeps (x y : UUID) (this : NodeIdMemory) :
  x ∈ nodeIds this → x ∈ nodeIds (nodeIdUniqueInEditor y this).2.
Proof. intros Hx. simpl. apply elem_of_app. by left. Qed.

Lemma record_all_keeps (x : UUID) (later : list UUID) (this : NodeIdMemory) :
  x ∈ nodeIds this → x ∈ nodeIds (record_all later this).
Proof.
  revert this. induction later as [|y later IH]; intros this Hx; [done|].
  simpl. apply IH. by apply record_keeps.
Qed.

(** X2.  Once an identity has been checked, every later check of it
    answers "not unique", whatever identities are checked in between. *)
Theorem recorded_identity_stays_seen (x : UUID) (later : list UUID)
    (this : NodeIdMemory) :
  (nodeIdUniqueInEditor x
     (record_all later (nodeIdUniqueInEditor x this).2)).1 = false.
Proof.
  unfold nodeIdUniqueInEditor at 1. cbn [fst]. rewrite indexOf_negative.
  rewrite bool_decide_true; [done|].
  apply record_all_keeps. simpl. apply elem_of_app. right. by left.
Qed.

(** X3.  When the entry just recorded for an identity is replaced by
    another identity, the first one counts as unique again at its next
    check, provided it had not been seen before. *)
Theorem replaced_identity_is_unique_again (x y : UUID) (this : NodeIdMemory) :
  x ∉ nodeIds this → x ≠ y →
  (nodeIdUniqueInEditor x
     (replaceLastItem y (nodeIdUniqueInEditor x this).2)).1 = true.
Proof.
  intros Hx Hxy. rewrite replaceLastItem_after_record.
  unfold nodeIdUniqueInEditor. cbn [fst nodeIds]. rewrite indexOf_negative.
  rewrite bool_decide_false; [done|].
  intros [?|Hin%list_elem_of_singleton]%elem_of_app; done.
Qed.

(** ** More on the merge of display fields *)

(** X6.  In the merged edits, [$type], [$index] and [$edits] read as in
    the display item (as [undefined] when the display item lacks them,
    whatever the pending edits held) and every other property reads as in
    the pending edits; merging the same display item again changes
    nothing. *)
Theorem merged_edits_props (pending displayItem : Item) :
  (∀ k, prop (merged_edits pending displayItem) k
        = if bool_decide (k ∈ ["$type"; "$index"; "$edits"])
          then prop displayItem k else prop pending k)
  ∧ merged_edits (merged_edits pending displayItem) displayItem
    = merged_edits pending displayItem.
Proof.
  split.
  - intros k. unfold merged_edits, prop.
    destruct (decide (k = "$edits")) as [->|H1].
    { rewrite lookup_insert_eq. by rewrite bool_decide_true by set_solver. }
    rewrite lookup_insert_ne by done.
    destruct (decide (k = "$index")) as [->|H2].
    { rewrite lookup_insert_eq. by rewrite bool_decide_true by set_solver. }
    rewrite lookup_insert_ne by done.
    destruct (decide (k = "$type")) as [->|H3].
    { rewrite lookup_insert_eq. by rewrite bool_decide_true by set_solver. }
    rewrite lookup_insert_ne by done.
    rewrite bool_decide_false; [done|].
    intros Hin. repeat (apply elem_of_cons in Hin as [?|Hin]; [done|]).
    by apply elem_of_nil in Hin.
  - unfold merged_edits. apply map_eq. intros k.
    destruct (decide (k = "$edits")) as [->|H1];
      [by rewrite !lookup_insert_eq|rewrite !(lookup_insert_ne _ "$edits") by done].
    destruct (decide (k = "$index")) as [->|H2];
      [by rewrite !lookup_insert_eq|rewrite !(lookup_insert_ne _ "$index") by done].
    destruct (decide (k = "$type")) as [->|H3];
      [by rewrite !lookup_insert_eq|rewrite !(lookup_insert_ne _ "$type") by done].
    by rewrite !lookup_insert_ne by done.
Qed.

(** ** More on patching the document *)

Section patching.
Context {R : Type} `{!RelationReference R}.
Implicit Types (w : World R).

(** X5.  [_refreshEditorNodeId] raises when the document has no node at
    the given position.  On a reference node of the document it puts a
    new node object at the node's position, with the new identity and
    otherwise the attributes of the old one, and overwrites the
    attributes of the node object the caller holds in the same way: every
    other position that holds the caller's object reads the new identity
    as well, the remaining positions read as they did, and no other
    object that existed changes.  The store and the relation collection
    are untouched, and the one transaction dispatched is kept out of the
    history and prevents the update event. *)
Theorem refreshed_identity_reads_back (newId : UUID) (nw : NodeWithPos) w :
  (nodeAt (doc w) (pos nw) = None → _refreshEditorNodeId newId nw w = Threw)
  ∧ (nw ∈ _getExistingEditorNodes w →
     let after := patched newId (deref (objects w) (node nw)) in
     ∃ w' (o' : nat),
       _refreshEditorNodeId newId nw w = Done w'
       ∧ content_size (doc w') = content_size (doc w)
       ∧ nodeAt (doc w') (pos nw) = Some o'
       ∧ ¬ live w o'
       ∧ deref (objects w') o' = after
       ∧ deref (objects w') (node nw) = after
       ∧ (∀ q, q ≠ pos nw →
            read_at w' q = if decide (nodeAt (doc w) q = Some (node nw))
                           then Some after else read_at w q)
       ∧ (∀ o : nat, live w o → o ≠ node nw →
            objects w' !! o = objects w !! o)
       ∧ m2aStore w' = m2aStore w ∧ m2aRelation w' = m2aRelation w
       ∧ log w' = log w ++ [Dispatch {| tr_pos := pos nw;
                                        tr_attrs := attrs after;
                                        addToHistory := false;
                                        preventUpdate := true |}]).
Proof.
  split.
  { intros Hn. unfold _refreshEditorNodeId, _updateNodeAttrs.
    by rewrite setNodeMarkup_no_node. }
  intros [Hn Hrb]%elem_of_existing_nodes after.
  rewrite (_refreshEditorNodeId_held _ _ _ Hn (relation_block_not_text _ _ Hrb)).
  set (w' := {| m2aStore := _; m2aRelation := _; doc := _; objects := _;
                log := _ |}).
  destruct (refreshed_frame newId nw w w' Hn eq_refl eq_refl)
    as (Hframe & Hat & Hnew & Hnode).
  exists w', (new_object (objects w) (doc w)).
  split; [done|]. split; [apply Hframe|]. split; [done|].
  split; [apply new_object_not_live|]. split; [done|]. split; [done|].
  split; [by apply frame_reading|].
  split; [|done]. intros o Hl Hon. by apply Hframe.
Qed.
End patching.

Section more.
Context {R : Type} `{!RelationReference R} `{!UuidSource}.
Implicit Types (w : World R) (it : M2AStoreItem).

(** ** More on removal reconciliation *)

(** X7.  When none of the identities has a display item,
    [_removeRelatedItems] leaves everything as it is. *)
Theorem nothing_deleted_without_display_items (nodeIds : list UUID) w :
  Forall (λ nodeId, findDisplayItem (m2aRelation w) nodeId = None) nodeIds →
  _removeRelatedItems nodeIds w = w.
Proof.
  intros Hall. unfold _removeRelatedItems. case_bool_decide as Hlen; [done|].
  clear Hlen. induction Hall as [|nodeId rest Hk _ IH]; [done|].
  simpl. by rewrite Hk.
Qed.

(** ** More on the callback of the insertion loop *)

(** X8.  For a node whose item is inactive and new, the callback claims
    the item for this field and issues a single [create] with the item's
    data, and neither [remove] nor [update]; the document and its node
    objects are untouched. *)
Theorem new_item_is_created editorField (nw : NodeWithPos) w memory it :
  m2aStore w !! node_id w nw = Some it →
  active it = false →
  isNew it = true →
  ∃ w' evs,
    syncInsertedNode editorField nw w memory
    = Done (w', {| nodeIds := nodeIds memory ++ [node_id w nw] |})
    ∧ log w' = log w ++ evs
    ∧ collection_calls evs = [Create (item it)]
    ∧ m2aStore w' = <[node_id w nw := claimed editorField it]> (m2aStore w)
    ∧ doc w' = doc w
    ∧ objects w' = objects w.
Proof.
  intros Hk Ha Hn. rewrite (syncInsertedNode_activate _ _ _ _ _ Hk Ha), Hn.
  eexists _, _. split; [reflexivity|]. simpl. split; [reflexivity|].
  split; [|done]. by rewrite collection_calls_activate.
Qed.

(** X9.  For a node whose item is inactive, not new and without pending
    edits, the callback claims the item and issues a single [remove] with
    the result of the lookup, and no [update] nor [create]; the document
    and its node objects are untouched. *)
Theorem reactivation_without_edits_only_removes editorField (nw : NodeWithPos)
    w memory it :
  m2aStore w !! node_id w nw = Some it →
  active it = false →
  isNew it = false →
  edits it = None →
  ∃ w' evs,
    syncInsertedNode editorField nw w memory
    = Done (w', {| nodeIds := nodeIds memory ++ [node_id w nw] |})
    ∧ log w' = log w ++ evs
    ∧ collection_calls evs
      = [Remove (findDisplayItem (m2aRelation w) (node_id w nw))]
    ∧ m2aStore w' = <[node_id w nw := claimed editorField it]> (m2aStore w)
    ∧ doc w' = doc w
    ∧ objects w' = objects w.
Proof.
  intros Hk Ha Hn He.
  rewrite (syncInsertedNode_activate _ _ _ _ _ Hk Ha), Hn, He.
  eexists _, _. split; [reflexivity|]. simpl. split; [reflexivity|].
  split; [|done]. by rewrite collection_calls_activate.
Qed.

(** What one callback logs when it completes, and when it raises. *)
Lemma syncInsertedNode_events editorField (nw : NodeWithPos) w memory :
  match syncInsertedNode editorField nw w memory with
  | Threw =>
      ∃ it, m2aStore w !! node_id w nw = Some it ∧ active it = true
            ∧ (node_id w nw ∈ nodeIds memory ∨ field it ≠ editorField)
            ∧ setNodeMarkup (pos nw)
                (attrs (patched (new_uuid (m2aStore w))
                          (deref (objects w) (node nw)))) w = Threw
  | Done (w', memory') =>
      ∃ evs,
        log w' = log w ++ evs
        ∧ Forall (λ e, is_insertion_event e = true) evs
        ∧ callback_calls (collection_calls evs)
        ∧ ((evs = [] ∧ w' = w
            ∧ (m2aStore w !! node_id w nw = None
               ∨ ∃ it, m2aStore w !! node_id w nw = Some it
                       ∧ active it = true
                       ∧ (node_id w nw ∉ nodeIds memory)
                       ∧ field it = editorField))
           ∨ (evs ≠ []
              ∧ ∃ it, m2aStore w !! node_id w nw = Some it
                      ∧ (active it = false ∨ (node_id w nw ∈ nodeIds memory)
                         ∨ field it ≠ editorField)))
  end.
Proof.
  destruct (m2aStore w !! node_id w nw) as [it|] eqn:Hk.
  2:{ rewrite syncInsertedNode_orphan by done. exists [].
      rewrite app_nil_r. repeat split; try done; [constructor|left; eauto]. }
  assert (Hclaim : ∀ nodeId, Forall (λ e, is_insertion_event e = true)
                     (claim_events nodeId editorField it)).
  { intros nodeId. unfold claim_events. case_bool_decide; repeat constructor. }
  destruct (active it) eqn:Ha.
  - destruct (decide (node_id w nw ∈ nodeIds memory ∨ field it ≠ editorField))
      as [Hdup|Hno].
    + rewrite (syncInsertedNode_duplicate _ _ _ _ _ Hk Ha Hdup). cbv zeta.
      destruct (setNodeMarkup _ _ w) as [[d h]|] eqn:Hset; [|by eauto].
      eexists. simpl. split; [reflexivity|]. split.
      { repeat constructor. apply Forall_app. split; [|repeat constructor].
        apply Hclaim. }
      split.
      { replace (collection_calls _) with
          [Create (item it)]; [constructor|].
        unfold claim_events. by case_bool_decide. }
      right. split; [done|]. exists it. split; [done|]. tauto.
    + assert (node_id w nw ∉ nodeIds memory) as Hnin by tauto.
      assert (field it = editorField) as Hf
        by (destruct (decide (field it = editorField)); tauto).
      rewrite (syncInsertedNode_unchanged _ _ _ _ _ Hk Ha Hnin Hf).
      exists []. rewrite app_nil_r. repeat split; try done; [constructor|].
      left. repeat split; try done. right. eauto.
  - rewrite (syncInsertedNode_activate _ _ _ _ _ Hk Ha).
    destruct (isNew it); [|destruct (edits it);
      [destruct (findDisplayItem _ _)|]];
      (eexists; simpl;
       split; [reflexivity|];
       split; [constructor; [done|]; apply Forall_app; split;
               [apply Hclaim | repeat constructor]|];
       split; [rewrite collection_calls_activate; constructor|];
       right; split; [done|]; exists it; split; [done|]; by left).
Qed.

(** X10.  What one callback that completes has called on the relation
    collection is nothing, one [create], one [remove], or one [remove]
    followed by one [update]; it has not deactivated anything and has not
    called [deleteItem]. *)
Theorem callback_calls_shape editorField (nw : NodeWithPos) w memory w' memory' :
  syncInsertedNode editorField nw w memory = Done (w', memory') →
  ∃ evs,
    log w' = log w ++ evs
    ∧ Forall (λ e, is_insertion_event e = true) evs
    ∧ callback_calls (collection_calls evs).
Proof.
  intros Hrun.
  pose proof (syncInsertedNode_events editorField nw w memory) as Hev.
  rewrite Hrun in Hev. destruct Hev as (evs & ? & ? & ? & _).
  by exists evs.
Qed.

(** X11.  The callback leaves the world as it is exactly when the node
    has no item in the store, or its item is active, owned by this field
    and its identity not yet in the memory. *)
Theorem callback_changes_nothing_iff editorField (nw : NodeWithPos) w memory :
  (∃ memory', syncInsertedNode editorField nw w memory = Done (w, memory'))
  ↔ m2aStore w !! node_id w nw = None
    ∨ ∃ it, m2aStore w !! node_id w nw = Some it ∧ active it = true
            ∧ (node_id w nw ∉ nodeIds memory) ∧ field it = editorField.
Proof.
  pose proof (syncInsertedNode_events editorField nw w memory) as Hev.
  split.
  - intros (m'' & Hrun). rewrite Hrun in Hev.
    destruct Hev as (evs & Hlog & _ & _ & Hcase).
    destruct Hcase as [(_ & _ & ?)|[Hne _]]; [done|].
    apply (f_equal length) in Hlog. rewrite length_app in Hlog.
    destruct evs; [done | simpl in Hlog; lia].
  - intros Hcond.
    destruct Hcond as [Hnone|(it & Hk & Ha & Hnin & Hf)].
    + rewrite syncInsertedNode_orphan by done. eauto.
    + rewrite (syncInsertedNode_unchanged _ _ _ _ _ Hk Ha Hnin Hf). eauto.
Qed.

(** X15.  In the store, one callback on a reference node of the
    document changes at most the item of the node and the item under the
    identity the generator yields: no other item is added, removed or
    changed. *)
Theorem callback_touches_one_item editorField (nw : NodeWithPos) w memory :
  nw ∈ _getExistingEditorNodes w →
  ∃ w' memory',
    syncInsertedNode editorField nw w memory = Done (w', memory')
    ∧ (∀ k, m2aStore w !! k = None → k ≠ new_uuid (m2aStore w) →
            m2aStore w' !! k = None)
    ∧ (∀ k, k ≠ node_id w nw → k ≠ new_uuid (m2aStore w) →
            m2aStore w' !! k = m2aStore w !! k).
Proof.
  intros [Hn Hrb]%elem_of_existing_nodes.
  destruct (syncInsertedNode_step editorField nw w memory Hn
              (relation_block_not_text _ _ Hrb))
    as (w' & m' & id' & Hrun & Hstep & _).
  exists w', m'. split; [done|].
  destruct Hstep as [Hk | it Hk Ha Hf Hnin | it y Hk Ha Hdup Hay Hfy
                     | it y Hk Ha Hay Hfy]; split; intros k; try done.
  - intros Hnone Hne. by rewrite lookup_insert_ne.
  - intros _ Hne. by rewrite lookup_insert_ne.
  - intros Hnone _. rewrite lookup_insert_ne; [done|]. congruence.
  - intros Hne _. by rewrite lookup_insert_ne.
Qed.
End more.

(** ** The document, the snapshot and the log over a whole pass *)

Section pass_frame.
Context {R : Type} `{!RelationReference R} `{!UuidSource}.
Implicit Types (w : World R).

(** The loop over distinct node objects leaves each of them reading what
    the document shows at its position. *)
Lemma forEach_node_agree editorField (nodes : list NodeWithPos) :
  ∀ w memory,
    NoDup (pos <$> nodes) →
    NoDup (node <$> nodes) →
    (∀ nw, nw ∈ nodes → nw ∈ _getExistingEditorNodes w) →
    ∃ w' memory',
      forEach_node editorField nodes w memory = Done (w', memory')
      ∧ ∀ nw, nw ∈ nodes →
          read_at w' (pos nw) = Some (deref (objects w') (node nw)).
Proof.
  induction nodes as [|nw rest IH]; intros w memory Hndp Hndo Hheld.
  - exists w, memory. split; [done|]. by intros nw ?%elem_of_nil.
  - simpl. apply NoDup_cons in Hndp as [Hheadp Hndp].
    apply NoDup_cons in Hndo as [Hheado Hndo].
    assert (nw ∈ _getExistingEditorNodes w) as Hnw by (apply Hheld; by left).
    pose proof Hnw as [Hn Hrb]%elem_of_existing_nodes.
    destruct (syncInsertedNode_step editorField nw w memory Hn
                (relation_block_not_text _ _ Hrb))
      as (w1 & m1 & id' & -> & _ & Hed).
    destruct (step_editor nw w w1 id' Hn Hed)
      as (Hframe & (o1 & Hat & Ho1 & Hread1) & Hnode).
    assert (Hother : ∀ nw', nw' ∈ rest →
              pos nw' ≠ pos nw ∧ node nw' ≠ node nw ∧ node nw' ≠ o1
              ∧ nw' ∈ _getExistingEditorNodes w1).
    { intros nw' Hin.
      assert (nw' ∈ _getExistingEditorNodes w) as Hnw'
        by (apply Hheld; by right).
      assert (pos nw' ≠ pos nw) as Hp.
      { intros Heq. apply Hheadp. rewrite <- Heq.
        by apply list_elem_of_fmap_2. }
      split; [done|]. split; [|split].
      - intros Heq. apply Hheado. rewrite <- Heq. by apply list_elem_of_fmap_2.
      - intros Heq. destruct Ho1 as [->|Hfresh].
        + apply Hheado. rewrite <- Heq. by apply list_elem_of_fmap_2.
        + apply Hfresh. rewrite <- Heq.
          apply elem_of_existing_nodes in Hnw' as [Hn' _].
          by eapply nodeAt_live.
      - exact (step_keeps_entry nw nw' w w1 id' Hnw Hframe Hnode Hnw' Hp). }
    destruct (IH w1 m1 Hndp Hndo) as (w2 & m2 & Hrun & Hagree).
    { intros nw' Hin. by destruct (Hother nw' Hin) as (_ & _ & _ & ?). }
    destruct (forEach_node_editor editorField rest w1 m1 Hndp)
      as (w2' & m2' & Hrun' & _ & Hpos & Hobj & _).
    { intros nw' Hin. by destruct (Hother nw' Hin) as (_ & _ & _ & ?). }
    rewrite Hrun in Hrun'.
    assert (w2 = w2' ∧ m2 = m2') as [-> ->] by (split; congruence).
    clear Hrun'. rewrite Hrun.
    exists w2', m2'. split; [done|].
    intros nw0 [->|Hin]%elem_of_cons; [|by apply Hagree].
    unfold read_at. rewrite Hpos.
    2:{ intros (nw' & Heq & Hin)%list_elem_of_fmap.
        by destruct (Hother nw' Hin) as (Hp & _). }
    rewrite Hat. simpl. f_equal. unfold deref.
    rewrite (Hobj o1), (Hobj (node nw)).
    + fold (deref (objects w1) o1). fold (deref (objects w1) (node nw)).
      by rewrite Hread1, Hnode.
    + intros (nw' & Heq & Hin)%list_elem_of_fmap.
      by destruct (Hother nw' Hin) as (_ & Hne & _).
    + apply Hframe. by eapply nodeAt_live.
    + intros (nw' & Heq & Hin)%list_elem_of_fmap.
      by destruct (Hother nw' Hin) as (_ & _ & Hne & _).
    + by eapply nodeAt_live.
Qed.

(** X12.  When the reference nodes of the document are distinct node
    objects, the insertion loop leaves every node object of the snapshot
    reading what the document shows at its position. *)
Theorem snapshot_agrees_with_document editorField w :
  NoDup (node <$> _getExistingEditorNodes w) →
  ∃ w' memory',
    syncInsertedNodes editorField (_getExistingEditorNodes w) w
    = Done (w', memory')
    ∧ Forall (λ nw, read_at w' (pos nw) = Some (deref (objects w') (node nw)))
             (_getExistingEditorNodes w).
Proof.
  intros Hndo. unfold syncInsertedNodes.
  destruct (forEach_node_agree editorField (_getExistingEditorNodes w) w
              _nodeIdMemory (existing_nodes_pos_NoDup w) Hndo)
    as (w' & m' & Hrun & Hagree); [done|].
  exists w', m'. split; [done|]. by apply Forall_forall.
Qed.

Lemma syncRemovedNodes_events editorField (nodes : list NodeWithPos) w :
  ∃ evs, log (syncRemovedNodes editorField nodes w) = log w ++ evs
         ∧ Forall (λ e, is_removal_event e = true) evs.
Proof.
  unfold syncRemovedNodes, store_deactivateUnusedItems.
  destruct (deactivateUnusedItems _ _ _) as [ids s].
  destruct (_removeRelatedItems_calls ids
              (with_store s (Deactivated <$> ids) w))
    as (calls & Hc & Hl & _).
  exists ((Deactivated <$> ids) ++ calls). simpl in *.
  rewrite Hl, <- app_assoc. split; [done|].
  apply Forall_app. split.
  - apply Forall_fmap, Forall_true. done.
  - destruct (removal_calls_are_deletes _ _ _ _ Hc) as [Hdel _].
    eapply Forall_impl; [exact Hdel|]. by intros e [i ->].
Qed.

Lemma forEach_node_events editorField (nodes : list NodeWithPos) :
  ∀ w memory w' memory',
    forEach_node editorField nodes w memory = Done (w', memory') →
    ∃ evs, log w' = log w ++ evs
           ∧ Forall (λ e, is_insertion_event e = true) evs.
Proof.
  induction nodes as [|nw rest IH]; intros w memory w' memory'; simpl.
  - intros [= <- <-]. exists []. by rewrite app_nil_r.
  - pose proof (syncInsertedNode_events editorField nw w memory) as Hev.
    destruct (syncInsertedNode editorField nw w memory) as [[w1 m1]|]; [|done].
    destruct Hev as (evs1 & Hl1 & Hf1 & _).
    intros Hrun. destruct (IH _ _ _ _ Hrun) as (evs2 & Hl2 & Hf2).
    exists (evs1 ++ evs2). rewrite Hl2, Hl1, app_assoc. split; [done|].
    by apply Forall_app.
Qed.

(** X13.  The effects of a pass that completes come in two runs: first
    the deactivations and the [deleteItem] calls of removal
    reconciliation, then the effects of insertion reconciliation, among
    which there is no deactivation and no [deleteItem]. *)
Theorem pass_removes_then_inserts editorField w w' :
  syncRelationNodes editorField w = Done w' →
  ∃ removed inserted,
    log w' = log w ++ removed ++ inserted
    ∧ Forall (λ e, is_removal_event e = true) removed
    ∧ Forall (λ e, is_insertion_event e = true) inserted.
Proof.
  unfold syncRelationNodes, syncInsertedNodes.
  set (nodes := _getExistingEditorNodes w).
  destruct (syncRemovedNodes_events editorField nodes w)
    as (removed & Hlog0 & Hrem).
  destruct (forEach_node _ _ _ _) as [[w1 m1]|] eqn:Hrun; [|done].
  intros [= <-].
  destruct (forEach_node_events _ _ _ _ _ _ Hrun) as (inserted & Hlog & Hins).
  exists removed, inserted. split; [|done].
  by rewrite Hlog, Hlog0, app_assoc.
Qed.

(** X14.  A pass leaves the document with the same number of nodes, each
    of the same type and with the same attributes but the identity, and
    leaves every node that is not a [relation-block] as it was. *)
Theorem pass_changes_identities_only editorField w :
  ∃ w', syncRelationNodes editorField w = Done w'
        ∧ same_but_ids (shown w) (shown w').
Proof.
  destruct (syncRelationNodes_reading editorField w) as (w' & Hrun & Hread).
  exists w'. split; [done|]. by apply same_reading_shown.
Qed.
End pass_frame.

(** ** The claims on sample inputs *)

(** C1 (the code departs from the claim).  [world_shared] is a document
    that holds one node object at two positions, as after inserting a
    node of the document a second time.  The first pass finds the
    identity [U1] repeated at the second position and re-identifies the
    node there; it then overwrites the attributes of the node object it
    had read, which the document still holds at the first position.  So
    after the pass both positions show the new identity.  A second pass,
    the document unchanged, does not leave things alone: it deactivates
    [U1], which no node shows any more, duplicates the item again,
    dispatches another transaction and calls [create] again. *)
Theorem second_pass_changes_shared_node :
  ∃ w1 w2,
    @syncRelationNodes _ _ (uuid_avoiding ∅) (Some "F") world_shared = Done w1
    ∧ id_at w1 <$> [0; 1]%nat = ["0"; "0"]
    ∧ @syncRelationNodes _ _ (uuid_avoiding ∅) (Some "F") w1 = Done w2
    ∧ log w2
      = log w1 ++ [Deactivated "U1"; DuplicateItem "0" "1";
                   Dispatch (silent_patch "1" (relation_block "0") 1);
                   Create {["title" := JStr "t"]}]
    ∧ id_at w2 <$> [0; 1]%nat = ["0"; "1"].
Proof.
  eexists _, _. split; [vm_compute; reflexivity|].
  split; [vm_compute; reflexivity|].
  split; [vm_compute; reflexivity|].
  split; vm_compute; reflexivity.
Qed.

(** C2 (amended) on [world_repeat]: two node objects with the identity
    [U1], and one whose item another field owns. *)
Lemma identities_unique_after_pass_witness :
  ∃ w', @syncRelationNodes _ _ (uuid_avoiding ∅) (Some "F") world_repeat
        = Done w'
        ∧ NoDup (node_id w' <$> _getExistingEditorNodes w')
        ∧ length (_getExistingEditorNodes w') = 3%nat.
Proof.
  destruct (@identities_unique_after_pass _ _ (uuid_avoiding ∅) (Some "F")
              world_repeat) as (w' & Hrun & Hnd & Hlen & _).
  - apply (bool_decide_unpack _). vm_compute. reflexivity.
  - apply (bool_decide_unpack _). vm_compute. reflexivity.
  - exists w'. split; [exact Hrun|]. split; [exact Hnd | exact Hlen].
Defined.

(** C2 as stated fails: the only node of [world_cross] is the first to
    carry [U1], every node identity has an item in the store, and yet the
    pass gives the node a new identity, since the item is active under
    another field. *)
Lemma cross_field_first_node_reidentified :
  ∃ w', @syncRelationNodes _ _ (uuid_avoiding ∅) (Some "F2") world_cross = Done w'
        ∧ Forall (λ nw, is_Some (m2aStore world_cross !! node_id world_cross nw))
                 (_getExistingEditorNodes world_cross)
        ∧ NoDup (node <$> _getExistingEditorNodes world_cross)
        ∧ ¬ first_occurrence_keeps
              (node_id world_cross <$> _getExistingEditorNodes world_cross)
              (node_id w' <$> _getExistingEditorNodes w').
Proof.
  eexists. split; [vm_compute; reflexivity|]. split.
  { apply (bool_decide_unpack _). vm_compute. reflexivity. }
  split.
  { apply (bool_decide_unpack _). vm_compute. reflexivity. }
  intros Hkeep.
  specialize (Hkeep 0%nat "U1" "0" eq_refl eq_refl).
  assert ("0" = "U1") as Habs; [|discriminate].
  apply Hkeep. simpl. apply not_elem_of_nil.
Qed.

(** C3 on the second occurrence of [U1] in [world_repeat]. *)
Lemma duplicate_is_forked_witness :
  ∃ w',
    @syncInsertedNode _ _ (uuid_avoiding ∅) (Some "F") (entry 12 3)
      world_repeat {| nodeIds := ["U1"] |}
    = Done (w', {| nodeIds := ["U1"; "0"] |})
    ∧ id_at w' 3 = "0"
    ∧ id_at w' 2 = "U1".
Proof.
  destruct (@duplicate_is_forked _ _ (uuid_avoiding ∅) (Some "F")
              (entry 12 3) world_repeat {| nodeIds := ["U1"] |}
              (stored true false (Some "F") None))
    as (w' & dup & o' & evs & Hrun & Hmem & _ & _ & _ & _ & Hat & _
        & Hnew & _ & Hread & _).
  - apply elem_of_existing_nodes. split; reflexivity.
  - reflexivity.
  - reflexivity.
  - left. simpl. by left.
  - change (pos (entry 12 3)) with 3%nat in *.
    change (node (entry 12 3)) with 12%nat in *.
    exists w'. split; [|split].
    + rewrite Hrun. f_equal.
    + unfold id_at, read_at. rewrite Hat.
      change (attrs_id (attrs (deref (objects w') o')) = "0").
      by rewrite Hnew.
    + unfold id_at. rewrite (Hread 2%nat) by discriminate. reflexivity.
Defined.

(** C9 on [world_cross]. *)
Lemma setField_targets_duplicate_witness :
  ∃ w' memory',
    @syncInsertedNode _ _ (uuid_avoiding ∅) (Some "F2") (entry 7 0)
      world_cross _nodeIdMemory = Done (w', memory')
    ∧ m2aStore w' !! "U1" = Some (stored true false (Some "F1") None)
    ∧ SetField "0" (Some "F2") ∈ log w'.
Proof.
  destruct (@setField_targets_duplicate _ _ (uuid_avoiding ∅) (Some "F2")
              (entry 7 0) world_cross _nodeIdMemory
              (stored true false (Some "F1") None))
    as (w' & m' & dup & evs & Hrun & Hlog & _ & Hmut & Hk & _).
  - apply elem_of_existing_nodes. split; reflexivity.
  - reflexivity.
  - reflexivity.
  - discriminate.
  - exists w', m'. split; [exact Hrun|]. split; [exact Hk|].
    rewrite Hlog. apply elem_of_app. right.
    assert (SetField "0" (Some "F2")
              ∈ filter (λ e, is_store_mutation e = true) evs) as Hin.
    { rewrite Hmut. right. by left. }
    by apply list_elem_of_filter in Hin as [_ ?].
Defined.

(** C4 on [world_back], with the display item of the claim. *)
Lemma reactivation_merges_display_fields_witness :
  ∃ w' memory' e,
    @syncInsertedNode _ _ (uuid_avoiding ∅) (Some "F") (entry 7 0)
      (world_back shown_deleted) _nodeIdMemory
    = Done (w', memory')
    ∧ Update e ∈ log w'
    ∧ prop e "a" = JNum 1 ∧ prop e "$type" = JStr "X"
    ∧ prop e "$index" = JNum 2.
Proof.
  destruct (@reactivation_merges_display_fields _ _ (uuid_avoiding ∅)
              (Some "F") (entry 7 0) (world_back shown_deleted)
              _nodeIdMemory
              (stored false false (Some "F") (Some {["a" := JNum 1]}))
              (<["$index" := JNum 2]> {["$type" := JStr "X"]})
              (<["$index" := JNum 2]> {["$type" := JStr "X"]}))
    as (w' & m' & e & evs & Hrun & _ & _ & Hlog & Hcalls & He & _);
    try reflexivity.
  exists w', m', e. split; [exact Hrun|]. split.
  - rewrite Hlog. apply elem_of_app. right.
    assert (Update e ∈ collection_calls evs) as Hin.
    { rewrite Hcalls. right. by left. }
    by apply list_elem_of_filter in Hin as [_ ?].
  - rewrite He. repeat split; reflexivity.
Defined.

(** C10 on [world_back], with no display item at all. *)
Lemma reactivation_without_display_item_witness :
  ∃ w' memory',
    @syncInsertedNode _ _ (uuid_avoiding ∅) (Some "F") (entry 7 0)
      (world_back ∅) _nodeIdMemory
    = Done (w', memory')
    ∧ Update {["a" := JNum 1]} ∈ log w'.
Proof.
  destruct (@reactivation_without_display_item _ _ (uuid_avoiding ∅)
              (Some "F") (entry 7 0) (world_back ∅) _nodeIdMemory
              (stored false false (Some "F") (Some {["a" := JNum 1]}))
              {["a" := JNum 1]})
    as (w' & m' & it' & evs & Hrun & _ & _ & Hlog & Hcalls & _);
    try reflexivity.
  exists w', m'. split; [exact Hrun|].
  rewrite Hlog. apply elem_of_app. right.
  assert (Update {["a" := JNum 1]} ∈ collection_calls evs) as Hin.
  { rewrite Hcalls. right. by left. }
  by apply list_elem_of_filter in Hin as [_ ?].
Defined.

(** C7 on [world_orphan]. *)
Lemma orphan_node_skipped_witness :
  @syncRelationNodes _ _ (uuid_avoiding ∅) (Some "F") world_orphan
  = Done world_orphan.
Proof.
  apply (@orphan_node_skipped _ _ (uuid_avoiding ∅) (Some "F") world_orphan).
  - intros nodeId it Hk. vm_compute in Hk. discriminate.
  - apply (bool_decide_unpack _). vm_compute. reflexivity.
Defined.

(** C6 (the code departs from the claim).  On [world_back] without any
    display item, which reactivates a persisted item whose lookup in the
    relation collection returns nothing, the pass completes but calls
    [remove] with the unchecked result of the lookup, [undefined]: the
    missing display item is not skipped as in [_mergeUpdatedValues] and
    [_removeRelatedItems]. *)
Lemma reactivation_hands_undefined_to_remove :
  ∃ w', @syncRelationNodes _ _ (uuid_avoiding ∅) (Some "F") (world_back ∅)
        = Done w'
        ∧ filter (λ e, unguarded e = true) (log w') = [Remove None].
Proof. eexists. split; vm_compute; reflexivity. Qed.

(** ** The further properties on sample inputs *)

(** X3 on an empty memory. *)
Lemma replaced_identity_is_unique_again_witness :
  (nodeIdUniqueInEditor "U1"
     (replaceLastItem "U2" (nodeIdUniqueInEditor "U1" _nodeIdMemory).2)).1
  = true.
Proof.
  apply replaced_identity_is_unique_again.
  - simpl. apply not_elem_of_nil.
  - discriminate.
Defined.

(** X5 on [world_shared]: both positions read the new identity. *)
Lemma refreshed_identity_reads_back_witness :
  ∃ w', _refreshEditorNodeId "U9" (entry 7 1) world_shared = Done w'
        ∧ id_at w' 0 = "U9" ∧ id_at w' 1 = "U9".
Proof.
  destruct (@refreshed_identity_reads_back FixedRelation "U9" (entry 7 1)
              world_shared) as [_ Hheld].
  destruct Hheld as (w' & o' & Hrun & _ & Hat & _ & Hnew & _ & Hread & _).
  - apply elem_of_existing_nodes. split; reflexivity.
  - change (pos (entry 7 1)) with 1%nat in *.
    change (node (entry 7 1)) with 7%nat in *.
    exists w'. split; [exact Hrun|]. split.
    + unfold id_at. rewrite (Hread 0%nat) by discriminate. reflexivity.
    + unfold id_at, read_at. rewrite Hat.
      change (attrs_id (attrs (deref (objects w') o')) = "U9").
      by rewrite Hnew.
Defined.

(** X7 on an empty relation collection. *)
Lemma nothing_deleted_without_display_items_witness :
  _removeRelatedItems ["U1"; "U2"] world_orphan = world_orphan.
Proof.
  apply (@nothing_deleted_without_display_items FixedRelation _).
  repeat constructor.
Defined.

(** X8 on a new, inactive item. *)
Lemma new_item_is_created_witness :
  ∃ w',
    @syncInsertedNode _ _ (uuid_avoiding ∅) (Some "F") (entry 7 0)
      (sample_world {["U1" := stored false true None None]} ∅
                    (leaves [7%nat]) {[ 7%nat := relation_block "U1" ]})
      _nodeIdMemory
    = Done (w', {| nodeIds := ["U1"] |}).
Proof.
  destruct (@new_item_is_created _ _ (uuid_avoiding ∅) (Some "F")
              (entry 7 0)
              (sample_world {["U1" := stored false true None None]} ∅
                            (leaves [7%nat]) {[ 7%nat := relation_block "U1" ]})
              _nodeIdMemory (stored false true None None))
    as (w' & evs & Hrun & _); try reflexivity.
  exists w'. exact Hrun.
Defined.

(** X9 on a persisted, inactive item without edits. *)
Lemma reactivation_without_edits_only_removes_witness :
  ∃ w',
    @syncInsertedNode _ _ (uuid_avoiding ∅) (Some "F") (entry 7 0)
      (sample_world {["U1" := stored false false (Some "F") None]} ∅
                    (leaves [7%nat]) {[ 7%nat := relation_block "U1" ]})
      _nodeIdMemory
    = Done (w', {| nodeIds := ["U1"] |}).
Proof.
  destruct (@reactivation_without_edits_only_removes _ _ (uuid_avoiding ∅)
              (Some "F") (entry 7 0)
              (sample_world {["U1" := stored false false (Some "F") None]} ∅
                            (leaves [7%nat]) {[ 7%nat := relation_block "U1" ]})
              _nodeIdMemory (stored false false (Some "F") None))
    as (w' & evs & Hrun & _); try reflexivity.
  exists w'. exact Hrun.
Defined.

(** X10 on the reactivation of [world_back]. *)
Lemma callback_calls_shape_witness :
  ∃ w' memory' evs,
    @syncInsertedNode _ _ (uuid_avoiding ∅) (Some "F") (entry 7 0)
      (world_back shown_deleted) _nodeIdMemory = Done (w', memory')
    ∧ log w' = log (world_back shown_deleted) ++ evs
    ∧ callback_calls (collection_calls evs).
Proof.
  assert (∃ w' memory',
            @syncInsertedNode _ _ (uuid_avoiding ∅) (Some "F") (entry 7 0)
              (world_back shown_deleted) _nodeIdMemory = Done (w', memory'))
    as (w' & memory' & Hrun) by (eexists _, _; vm_compute; reflexivity).
  destruct (@callback_calls_shape _ _ (uuid_avoiding ∅) (Some "F") (entry 7 0)
              (world_back shown_deleted) _nodeIdMemory w' memory' Hrun)
    as (evs & Hlog & _ & Hshape).
  exists w', memory', evs. split; [exact Hrun|]. split; [exact Hlog|].
  exact Hshape.
Defined.

(** X12 on [world_repeat]. *)
Lemma snapshot_agrees_with_document_witness :
  ∃ w' memory',
    @syncInsertedNodes _ _ (uuid_avoiding ∅) (Some "F")
      (_getExistingEditorNodes world_repeat) world_repeat = Done (w', memory')
    ∧ read_at w' 3 = Some (deref (objects w') 12%nat).
Proof.
  destruct (@snapshot_agrees_with_document _ _ (uuid_avoiding ∅) (Some "F")
              world_repeat) as (w' & m' & Hrun & Hall).
  - apply (bool_decide_unpack _). vm_compute. reflexivity.
  - exists w', m'. split; [exact Hrun|].
    rewrite Forall_forall in Hall. apply (Hall (entry 12 3)).
    apply elem_of_existing_nodes. split; reflexivity.
Defined.

(** X13 on [world_repeat]. *)
Lemma pass_removes_then_inserts_witness :
  ∃ w' removed inserted,
    @syncRelationNodes _ _ (uuid_avoiding ∅) (Some "F") world_repeat = Done w'
    ∧ log w' = log world_repeat ++ removed ++ inserted
    ∧ Forall (λ e, is_removal_event e = true) removed
    ∧ Forall (λ e, is_insertion_event e = true) inserted.
Proof.
  assert (∃ w', @syncRelationNodes _ _ (uuid_avoiding ∅) (Some "F") world_repeat
                = Done w')
    as (w' & Hrun) by (eexists; vm_compute; reflexivity).
  destruct (@pass_removes_then_inserts _ _ (uuid_avoiding ∅) (Some "F")
              world_repeat w' Hrun) as (removed & inserted & Hlog & Hr & Hi).
  exists w', removed, inserted. split; [exact Hrun|]. split; [exact Hlog|].
  split; [exact Hr | exact Hi].
Defined.

(** X15 on the cross-field node of [world_cross]. *)
Lemma callback_touches_one_item_witness :
  ∃ w' memory',
    @syncInsertedNode _ _ (uuid_avoiding ∅) (Some "F2") (entry 7 0)
      world_cross _nodeIdMemory = Done (w', memory')
    ∧ m2aStore w' !! "U7" = None.
Proof.
  destruct (@callback_touches_one_item _ _ (uuid_avoiding ∅) (Some "F2")
              (entry 7 0) world_cross _nodeIdMemory)
    as (w' & memory' & Hrun & Hnone & _).
  - apply elem_of_existing_nodes. split; reflexivity.
  - exists w', memory'. split; [exact Hrun|].
    apply Hnone; [reflexivity | discriminate].
Defined.

(** X16 on [world_repeat]. *)
Lemma second_pass_is_noop_without_sharing_witness :
  ∃ w1, @syncRelationNodes _ _ (uuid_avoiding ∅) (Some "F") world_repeat
        = Done w1
        ∧ @syncRelationNodes _ _ (uuid_avoiding ∅) (Some "F") w1 = Done w1.
Proof.
  apply (@second_pass_is_noop_without_sharing _ _ (uuid_avoiding ∅) (Some "F")
           world_repeat).
  - apply (bool_decide_unpack _). vm_compute. reflexivity.
  - apply (bool_decide_unpack _). vm_compute. reflexivity.
Defined.
